(** * dmitigr::math — alignment, intervals and statistics

    A shallow embedding of [src/dmitigr/base/math.hpp] and the properties
    its specification states about it.

    - [Alignment]: [is_power_of_two], [padding], [aligned] over a
      fixed-width integer type [T] (signed or unsigned, [width] bits),
      integers being [Z] with the wrap-around written out.
    - [Promoted]: the same three functions with the integer promotions and
      with the overflow of a signed type left undefined.
    - [Intervals]: the class template [Interval<T>] over a value type with
      [<=], [<] and a default value; [Enum_class]: its typed constructor
      and [has] on every value of the enum class.
    - [Statistic]: [avg] and [variance] in IEEE 754 binary64, the [double]
      of the source.
    - [Process]: the polling loop of [wait_for_exit]. *)

From Stdlib Require Import ZArith Lia Bool String List QArith Qabs SpecFloat.
Import ListNotations.

Local Open Scope Z_scope.

(** ** Exceptions

    The only exception the header throws is [std::invalid_argument], which
    carries its message.  A throwing function returns [Thrown e]. *)

Inductive exception : Type :=
| invalid_argument (what : string).

Inductive outcome (A : Type) : Type :=
| Returned (a : A)
| Thrown (e : exception).

Arguments Returned {A} a.
Arguments Thrown {A} e.

Definition throws {A : Type} (o : outcome A) : bool :=
  match o with
  | Returned _ => false
  | Thrown _ => true
  end.

Definition returned {A : Type} (o : outcome A) : option A :=
  match o with
  | Returned a => Some a
  | Thrown _ => None
  end.

(** ** Alignment *)

Module Alignment.

Section Integer.

(** The template parameter [T]: an integer type of [width] bits, signed
    (two's complement) or unsigned.  Here every operator works in [T] and
    wraps around.  That is what the source computes wherever no operator
    on a signed type overflows, for every input that is not negative;
    [Promoted] below has the integer promotions of a [T] narrower than
    [int] and leaves the overflow of a signed type undefined. *)
Variable is_signed : bool.
Variable width : Z.

Definition T_min : Z := if is_signed then - 2 ^ (width - 1) else 0.
Definition T_max : Z := if is_signed then 2 ^ (width - 1) - 1 else 2 ^ width - 1.

Definition representable (z : Z) : Prop := T_min <= z <= T_max.

(** Reduction of a mathematical integer to its value in [T]. *)
Definition wrap (z : Z) : Z :=
  if is_signed
  then (z + 2 ^ (width - 1)) mod 2 ^ width - 2 ^ (width - 1)
  else z mod 2 ^ width.

Definition add (a b : Z) : Z := wrap (a + b).
Definition sub (a b : Z) : Z := wrap (a - b).
Definition neg (a : Z) : Z := wrap (- a).
Definition static_cast (a : Z) : Z := wrap a.

(** [return (number & (number - 1)) == 0;] *)
Definition is_power_of_two (number : Z) : bool :=
  Z.land number (sub number 1) =? 0.

Definition padding_negative : string :=
  "cannot calculate padding for a negative value".
Definition padding_not_power : string :=
  "cannot calculate padding with alignment that is not power of 2".

(** [padding(value, alignment)] *)
Definition padding (value alignment : Z) : outcome Z :=
  if negb (0 <=? value) then
    Thrown (invalid_argument padding_negative)
  else if negb (is_power_of_two alignment) then
    Thrown (invalid_argument padding_not_power)
  else
    Returned (Z.land (sub (static_cast 0) value)
                     (static_cast (sub alignment 1))).

Definition aligned_negative : string :=
  "cannot align a negative value".
Definition aligned_not_power : string :=
  "cannot align a value with alignment that is not power of 2".

(** [aligned(value, alignment)] *)
Definition aligned (value alignment : Z) : outcome Z :=
  if negb (0 <=? value) then
    Thrown (invalid_argument aligned_negative)
  else if negb (is_power_of_two alignment) then
    Thrown (invalid_argument aligned_not_power)
  else
    Returned (Z.land (add value (sub alignment 1)) (neg alignment)).

End Integer.

(** A mathematical power of two. *)
Definition power_of_two (n : Z) : Prop := exists k, 0 <= k /\ n = 2 ^ k.

End Alignment.

(** ** Alignment with the integer promotions

    The operands of [-], [+] and [&] are promoted first: a [T] narrower
    than [int] becomes an [int], any other [T] stays what it is.  In the
    promoted type an unsigned operator wraps around and a signed operator
    that overflows has undefined behaviour, which is [None] here. *)

Module Promoted.

(** What the call of a function that may meet undefined behaviour gives. *)
Definition behaviour (A : Type) : Type := option (outcome A).


Section Integer.

(** The width of [int], and the template parameter [T]. *)
Variable int_width : Z.
Variable is_signed : bool.
Variable width : Z.

Definition promoted_signed : bool :=
  if width <? int_width then true else is_signed.
Definition promoted_width : Z :=
  if width <? int_width then int_width else width.

(** The value of an arithmetic operator whose mathematical result is
    [z], in the promoted type. *)
Definition arithmetic (z : Z) : option Z :=
  if promoted_signed then
    if (Alignment.T_min true promoted_width <=? z)
       && (z <=? Alignment.T_max true promoted_width)
    then Some z else None
  else Some (z mod 2 ^ promoted_width).

(** The conversion to [T] of [static_cast<T>] and of the [return] of
    [aligned]: the value of [T] congruent to the operand. *)
Definition to_T (z : Z) : Z := Alignment.wrap is_signed width z.

(** [return (number & (number - 1)) == 0;] *)
Definition is_power_of_two (number : Z) : option bool :=
  match arithmetic (number - 1) with
  | Some predecessor => Some (Z.land number predecessor =? 0)
  | None => None
  end.

(** [padding(value, alignment)]; its return type, [auto], is the promoted
    type. *)
Definition padding (value alignment : Z) : behaviour Z :=
  if negb (0 <=? value) then
    Some (Thrown (invalid_argument Alignment.padding_negative))
  else
    match is_power_of_two alignment with
    | None => None
    | Some false =>
        Some (Thrown (invalid_argument Alignment.padding_not_power))
    | Some true =>
        match arithmetic (to_T 0 - value), arithmetic (alignment - 1) with
        | Some negated, Some predecessor =>
            Some (Returned (Z.land negated (to_T predecessor)))
        | _, _ => None
        end
    end.

(** [aligned(value, alignment)]; the [return] converts to [T]. *)
Definition aligned (value alignment : Z) : behaviour Z :=
  if negb (0 <=? value) then
    Some (Thrown (invalid_argument Alignment.aligned_negative))
  else
    match is_power_of_two alignment with
    | None => None
    | Some false =>
        Some (Thrown (invalid_argument Alignment.aligned_not_power))
    | Some true =>
        match arithmetic (alignment - 1) with
        | Some predecessor =>
            match arithmetic (value + predecessor),
                  arithmetic (- alignment) with
            | Some sum, Some negated =>
                Some (Returned (to_T (Z.land sum negated)))
            | _, _ => None
            end
        | None => None
        end
    end.

End Integer.

End Promoted.

(** ** Interval *)

Module Intervals.

(** [enum class Interval_type] *)
Inductive Interval_type : Type :=
| closed   (* [min, max] *)
| open     (* (min, max) *)
| lopen    (* (min, max] *)
| ropen.   (* [min, max) *)

Definition Interval_type_eqb (a b : Interval_type) : bool :=
  match a, b with
  | closed, closed | open, open | lopen, lopen | ropen, ropen => true
  | _, _ => false
  end.

(** What the class template asks of [T]: value initialisation [T{}] and
    the operators [<=] and [<]. *)
Class Value_type (T : Type) : Type := {
  value_init : T;
  le : T -> T -> bool;
  lt : T -> T -> bool
}.

(** [T] is totally ordered when [a < b] is the negation of [b <= a]. *)
Definition totally_ordered (T : Type) `{Value_type T} : Prop :=
  forall a b : T, lt a b = negb (le b a).

#[global] Instance Z_value_type : Value_type Z := {
  value_init := 0;
  le := Z.leb;
  lt := Z.ltb
}.

(** What comes of instantiating a member function of the class template:
    a function that can be called, or an ill-formed program, in which no
    call of the member compiles. *)
Inductive instantiation (A : Type) : Type :=
| well_formed (call : A)
| ill_formed.

Arguments well_formed {A} call.
Arguments ill_formed {A}.

(** Copy-list-initialisation ([return {...};], [x = {...};]): overload
    resolution looks at every constructor, and the program is ill-formed
    when the one it chooses is declared [explicit]. *)
Definition copy_list_initialization {A : Type} (chosen_is_explicit : bool)
  (constructed : A) : instantiation A :=
  if chosen_is_explicit then ill_formed else well_formed constructed.

Section Interval.

Context {T : Type} `{Value_type T}.

(** The private members [type_], [min_], [max_]. *)
Record Interval : Type := {
  type_ : Interval_type;
  min_ : T;
  max_ : T
}.

(** [Interval() = default;] with the member initialisers
    [type_{Type::closed}], [min_{}], [max_{}]. *)
Definition Interval_default : Interval :=
  {| type_ := closed; min_ := value_init; max_ := value_init |}.

Definition invalid_closed : string := "interval is invalid (min > max)".
Definition invalid_typed : string :=
  "interval is invalid (min > max or min >= max)".

(** [explicit Interval(T min, T max)] *)
Definition Interval_bounds (min max : T) : outcome Interval :=
  let this := {| type_ := closed; min_ := min; max_ := max |} in
  if negb (le (min_ this) (max_ this)) then
    Thrown (invalid_argument invalid_closed)
  else Returned this.

(** [explicit Interval(const Type type, T min, T max)] *)
Definition Interval_typed (type : Interval_type) (min max : T)
  : outcome Interval :=
  let this := {| type_ := type; min_ := min; max_ := max |} in
  let requirement :=
    (Interval_type_eqb (type_ this) closed && le (min_ this) (max_ this))
    || (negb (Interval_type_eqb (type_ this) closed)
        && lt (min_ this) (max_ this)) in
  if negb requirement then
    Thrown (invalid_argument invalid_typed)
  else Returned this.

(** The constructor above is declared [explicit]; [Interval() = default]
    is not. *)
Definition Interval_typed_is_explicit : bool := true.
Definition Interval_default_is_explicit : bool := false.

(** The four factories.  Each returns a braced list,
    [return {Type::closed, std::move(min), std::move(max)};], which
    copy-list-initialises the returned [Interval] through the typed
    constructor. *)
Definition make_closed (min max : T) : instantiation (outcome Interval) :=
  copy_list_initialization Interval_typed_is_explicit
    (Interval_typed closed min max).
Definition make_open (min max : T) : instantiation (outcome Interval) :=
  copy_list_initialization Interval_typed_is_explicit
    (Interval_typed open min max).
Definition make_lopen (min max : T) : instantiation (outcome Interval) :=
  copy_list_initialization Interval_typed_is_explicit
    (Interval_typed lopen min max).
Definition make_ropen (min max : T) : instantiation (outcome Interval) :=
  copy_list_initialization Interval_typed_is_explicit
    (Interval_typed ropen min max).

Definition type (this : Interval) : Interval_type := type_ this.
Definition min (this : Interval) : T := min_ this.
Definition max (this : Interval) : T := max_ this.

(** [bool has(const T& value) const noexcept], on an instance whose
    [type_] is one of the four enumerators: one of the four cases of the
    [switch] returns.  [Enum_class.has] below is the function on every
    value [type_] can hold, with the assertion that follows the
    [switch]. *)
Definition has (this : Interval) (value : T) : bool :=
  match type_ this with
  | closed => le (min_ this) value && le value (max_ this)
  | open => lt (min_ this) value && lt value (max_ this)
  | lopen => lt (min_ this) value && le value (max_ this)
  | ropen => le (min_ this) value && lt value (max_ this)
  end.

(** [std::pair<T, T> release() noexcept]: the pair that is returned and
    the state of the instance after [*this = {}]. *)
Definition release (this : Interval) : (T * T) * Interval :=
  let result := (min_ this, max_ this) in
  (result, Interval_default).

End Interval.

Arguments Interval T : clear implicits.

End Intervals.

(** ** Statistic *)

Module Statistic.

(** The arithmetic [avg] and [variance] compute in: the value of
    [double result{}], the four operators, the conversion
    [static_cast<double>] of a [std::size_t], and the test [result >= 0]. *)
Class Arithmetic (D : Type) : Type := {
  zero : D;
  plus : D -> D -> D;
  minus : D -> D -> D;
  times : D -> D -> D;
  divide : D -> D -> D;
  of_size : Z -> D;
  ge_zero : D -> bool
}.

(** [double]: IEEE 754 binary64, round to nearest even. *)
Definition double : Type := spec_float.

Definition prec : Z := 53.
Definition emax : Z := 1024.

Definition double_of_Z (z : Z) : double := binary_normalize prec emax z 0 false.

#[global] Instance binary64 : Arithmetic double := {
  zero := S754_zero false;
  plus := SFadd prec emax;
  minus := SFsub prec emax;
  times := SFmul prec emax;
  divide := SFdiv prec emax;
  of_size := double_of_Z;
  ge_zero := fun result => SFleb (S754_zero false) result
}.

(** [std::size_t] is taken to be 64 bits wide; its subtraction wraps. *)
Definition size_t_sub (a b : Z) : Z := (a - b) mod 2 ^ 64.

(** How a function that ends in an assertion ends: it passes the assertion
    and returns, or the assertion fails. *)
Inductive asserted (A : Type) : Type :=
| Passed (a : A)
| Assertion_failed.

Arguments Passed {A} a.
Arguments Assertion_failed {A}.

(** Modelled from the spec: the macro [DMITIGR_ASSERT] of [assert.hpp],
    which is not among the sources.  The spec calls a failed assertion a
    fatal internal-invariant violation that aborts instead of returning a
    recoverable error, so execution goes on only when the condition
    holds. *)
Definition DMITIGR_ASSERT {A : Type} (condition : bool) (continue : A)
  : asserted A :=
  if condition then Passed continue else Assertion_failed.

Section Statistic.

Context {D : Type} {arithmetic : Arithmetic D}.

Definition size (data : list D) : Z := Z.of_nat (length data).

(** [avg(data)] *)
Definition avg (data : list D) : D :=
  let data_size := size data in
  fold_left
    (fun result num => plus result (divide num (of_size data_size)))
    data zero.

(** The denominator [static_cast<double>(data.size() - !general)]. *)
Definition denominator (data : list D) (general : bool) : D :=
  of_size (size_t_sub (size data) (if negb general then 1 else 0)).

(** The value of [result] when the loop of [variance] ends. *)
Definition variance_sum (data : list D) (avg : D) (general : bool) : D :=
  let den := denominator data general in
  fold_left
    (fun result num =>
       let d := minus num avg in
       plus result (times (divide d den) d))
    data zero.

(** [variance(data, avg, general)] *)
Definition variance (data : list D) (avg : D) (general : bool)
  : asserted D :=
  let result := variance_sum data avg general in
  DMITIGR_ASSERT (ge_zero result) result.

(** [variance(data, general)], the overload. *)
Definition variance_of (data : list D) (general : bool) : asserted D :=
  variance data (avg data) general.

End Statistic.

(** *** Classes of [double] values *)

(** Zero or a finite number: neither NaN nor an infinity. *)
Definition is_finite (x : double) : bool :=
  match x with
  | S754_zero _ | S754_finite _ _ _ => true
  | S754_infinity _ | S754_nan => false
  end.

Definition is_nan (x : double) : bool :=
  match x with
  | S754_nan => true
  | _ => false
  end.

(** What a division by zero produces: NaN or an infinity. *)
Definition division_by_zero_class (x : double) : bool :=
  match x with
  | S754_nan | S754_infinity _ => true
  | S754_zero _ | S754_finite _ _ _ => false
  end.

(** [x] is not NaN and its sign bit is [s]. *)
Definition has_sign (s : bool) (x : double) : Prop :=
  match x with
  | S754_zero s' | S754_infinity s' | S754_finite s' _ _ => s' = s
  | S754_nan => False
  end.

(** The rational a finite [double] stands for. *)
Definition Q_of_double (x : double) : option Q :=
  match x with
  | S754_zero _ => Some 0%Q
  | S754_finite s m e =>
      Some (inject_Z (cond_Zopp s (Zpos m)) * Qpower 2 e)%Q
  | S754_infinity _ | S754_nan => None
  end.


(** *** The statistics the specification names

    Written from the words of the specification, over the rationals: the
    arithmetic mean, and the variance around [mean] with denominator [N]
    (population) or [N - 1] (sample). *)






End Statistic.

(** ** Interval: every value of the enum class

    [Interval_type] is an [enum class]: its underlying type is [int], and
    [static_cast<Interval_type>(n)] is a value of it for every [int] [n],
    whether or not an enumerator has that value.  The typed constructor
    takes any such value, and [has] switches on it. *)

Module Enum_class.

(** The values of the four enumerators, in the order of declaration. *)
Definition underlying (type : Intervals.Interval_type) : Z :=
  match type with
  | Intervals.closed => 0
  | Intervals.open => 1
  | Intervals.lopen => 2
  | Intervals.ropen => 3
  end.

(** The enumerator a value of the enum class is, if it is one. *)
Definition enumerator (value : Z) : option Intervals.Interval_type :=
  if value =? underlying Intervals.closed then Some Intervals.closed
  else if value =? underlying Intervals.open then Some Intervals.open
  else if value =? underlying Intervals.lopen then Some Intervals.lopen
  else if value =? underlying Intervals.ropen then Some Intervals.ropen
  else None.

Section Instance.

Context {T : Type} `{Intervals.Value_type T}.

(** The private members, [type_] holding any value of the enum class. *)
Record Instance : Type := {
  type_ : Z;
  min_ : T;
  max_ : T
}.

(** [explicit Interval(const Type type, T min, T max)] *)
Definition Interval_typed (type : Z) (min max : T) : outcome Instance :=
  let this := {| type_ := type; min_ := min; max_ := max |} in
  let requirement :=
    ((type_ this =? underlying Intervals.closed)
     && Intervals.le (min_ this) (max_ this))
    || (negb (type_ this =? underlying Intervals.closed)
        && Intervals.lt (min_ this) (max_ this)) in
  if negb requirement then
    Thrown (invalid_argument Intervals.invalid_typed)
  else Returned this.

(** [bool has(const T& value) const noexcept]: the [switch] with its four
    cases, and [DMITIGR_ASSERT(false)] after it for a [type_] that is none
    of them.  Nothing follows that assertion, so the value given to it
    here is never returned. *)
Definition has (this : Instance) (value : T) : Statistic.asserted bool :=
  match enumerator (type_ this) with
  | Some Intervals.closed =>
      Statistic.Passed
        (Intervals.le (min_ this) value && Intervals.le value (max_ this))
  | Some Intervals.open =>
      Statistic.Passed
        (Intervals.lt (min_ this) value && Intervals.lt value (max_ this))
  | Some Intervals.lopen =>
      Statistic.Passed
        (Intervals.lt (min_ this) value && Intervals.le value (max_ this))
  | Some Intervals.ropen =>
      Statistic.Passed
        (Intervals.le (min_ this) value && Intervals.lt value (max_ this))
  | None => Statistic.DMITIGR_ASSERT false false
  end.

(** The instance an interval of the four-enumerator model is. *)
Definition of_Interval (this : Intervals.Interval T) : Instance :=
  {| type_ := underlying (Intervals.type_ this);
     min_ := Intervals.min_ this;
     max_ := Intervals.max_ this |}.

End Instance.

Arguments Instance T : clear implicits.


End Enum_class.

(** ** Process

    [src/dmitigr/nix/process.hpp]: the polling loop of [wait_for_exit].  The
    operating system is a list of answers, one for each call of [kill] in
    the order the calls are made; the function gives back the calls it
    made and how it ended. *)

Module Process.

(** [std::system_error{errno, std::generic_category()}] *)
Inductive system_error : Type :=
| generic_category (code : Z).

(** The calls [wait_for_exit] makes: [kill(pid, sig)] and
    [std::this_thread::sleep_for(polling_interval)]. *)
Inductive call : Type :=
| kill (pid sig : Z)
| sleep_for (polling_interval : Z).

(** The answer to one call of [kill]: the value it returns and the value
    [errno] has after it. *)
Record kill_answer : Type := {
  returned_value : Z;
  errno : Z
}.

(** How the loop ends: by [break], by [throw], or not within the answers
    given, every probe so far having found the process. *)
Inductive ending : Type :=
| exited
| threw (e : system_error)
| still_polling.

Section Wait_for_exit.

(** The constant [ESRCH] of [<cerrno>]. *)
Variable ESRCH : Z.

(** [wait_for_exit(pid, polling_interval)] *)
Fixpoint wait_for_exit (pid polling_interval : Z)
  (answers : list kill_answer) : list call * ending :=
  match answers with
  | [] => ([], still_polling)
  | answer :: answers' =>
      if returned_value answer <? 0 then
        if errno answer =? ESRCH then ([kill pid 0], exited)
        else ([kill pid 0], threw (generic_category (errno answer)))
      else
        let (calls, e) := wait_for_exit pid polling_interval answers' in
        (kill pid 0 :: sleep_for polling_interval :: calls, e)
  end.

End Wait_for_exit.

(** The calls of [n] rounds in which the process is found. *)
Definition polling_rounds (pid polling_interval : Z) (n : nat) : list call :=
  concat (repeat [kill pid 0; sleep_for polling_interval] n).

End Process.

(** ** Reference notions

    Notions the properties below are stated against. *)

Module Reference.

(** The least multiple of [alignment] that is not below [value], written
    with a division. *)
Definition round_up (value alignment : Z) : Z :=
  alignment * ((value + (alignment - 1)) / alignment).

(** The laws of a total order, for the [<=] and [<] of a value type. *)
Record total_order (T : Type) `{Intervals.Value_type T} : Prop := {
  lt_is_not_ge :
    forall a b : T, Intervals.lt a b = negb (Intervals.le b a);
  le_total :
    forall a b : T, Intervals.le a b = true \/ Intervals.le b a = true;
  le_transitive :
    forall a b c : T,
      Intervals.le a b = true -> Intervals.le b c = true ->
      Intervals.le a c = true;
  le_antisymmetric :
    forall a b : T,
      Intervals.le a b = true -> Intervals.le b a = true -> a = b
}.

(** The ordering of the bounds the constructors require: [min <= max] for
    a closed interval, [min < max] for the three others. *)
Definition ordered_bounds {T : Type} `{Intervals.Value_type T}
  (this : Intervals.Interval T) : bool :=
  match Intervals.type_ this with
  | Intervals.closed => Intervals.le (Intervals.min_ this) (Intervals.max_ this)
  | _ => Intervals.lt (Intervals.min_ this) (Intervals.max_ this)
  end.

(** The rational a [double] stands for, 0 for an infinity and for NaN. *)
Definition value (x : Statistic.double) : Q :=
  match Statistic.Q_of_double x with
  | Some q => q
  | None => 0%Q
  end.






End Reference.

(** * Properties *)

(** ** Alignment: integer arithmetic of [T] *)

Section Integer_facts.

Import Alignment.

Variable is_signed : bool.
Variable width : Z.
Hypothesis width_pos : 0 < width.

Local Abbreviation T_min := (T_min is_signed width).
Local Abbreviation T_max := (T_max is_signed width).
Local Abbreviation representable := (representable is_signed width).
Local Abbreviation wrap := (wrap is_signed width).
Local Abbreviation sub := (sub is_signed width).
Local Abbreviation add := (add is_signed width).
Local Abbreviation neg := (neg is_signed width).
Local Abbreviation is_power_of_two := (is_power_of_two is_signed width).
Local Abbreviation padding := (padding is_signed width).
Local Abbreviation aligned := (aligned is_signed width).
Local Abbreviation power_of_two := Alignment.power_of_two.

Lemma pow2_width : 2 ^ width = 2 * 2 ^ (width - 1).
Proof using width_pos.
  rewrite <- Z.pow_succ_r by lia. f_equal. lia.
Qed.

Lemma half_pos : 0 < 2 ^ (width - 1).
Proof using width_pos. apply Z.pow_pos_nonneg; lia. Qed.

Lemma wrap_representable z : representable z -> wrap z = z.
Proof using width_pos.
  unfold Alignment.representable, Alignment.wrap, Alignment.T_min,
    Alignment.T_max.
  pose proof pow2_width. pose proof half_pos.
  destruct is_signed; intros Hz.
  - rewrite Z.mod_small by lia. lia.
  - apply Z.mod_small. lia.
Qed.

Lemma wrap_is_representable z : representable (wrap z).
Proof using width_pos.
  unfold Alignment.representable, Alignment.wrap, Alignment.T_min,
    Alignment.T_max.
  pose proof pow2_width. pose proof half_pos.
  destruct is_signed.
  - pose proof (Z.mod_pos_bound (z + 2 ^ (width - 1)) (2 ^ width)). lia.
  - pose proof (Z.mod_pos_bound z (2 ^ width)). lia.
Qed.

Lemma T_bounds : T_min <= 0 <= T_max.
Proof using width_pos.
  unfold Alignment.T_min, Alignment.T_max.
  pose proof pow2_width. pose proof half_pos.
  destruct is_signed; lia.
Qed.

(** *** The bit trick [n & (n - 1)] *)

Lemma land_pred_pow2 k : 0 <= k -> Z.land (2 ^ k) (2 ^ k - 1) = 0.
Proof.
  intros Hk. rewrite Z.sub_1_r, <- Z.ones_equiv, Z.land_ones by assumption.
  apply Z.mod_same. apply Z.pow_nonzero; lia.
Qed.

Lemma land_pred_not_pow2 n :
  0 < n -> ~ power_of_two n -> Z.land n (n - 1) <> 0.
Proof.
  intros Hn Hnp Hland.
  destruct (Z.log2_spec n Hn) as [Hlo Hhi].
  pose proof (Z.log2_nonneg n) as Hk.
  assert (Hne : n <> 2 ^ Z.log2 n).
  { intros E. apply Hnp. exists (Z.log2 n). split; assumption. }
  assert (Hlog : Z.log2 (n - 1) = Z.log2 n).
  { apply Z.log2_unique; lia. }
  assert (Hbit : Z.testbit (Z.land n (n - 1)) (Z.log2 n) = true).
  { rewrite Z.land_spec, Z.bit_log2 by assumption.
    rewrite <- Hlog, Z.bit_log2 by lia. reflexivity. }
  rewrite Hland, Z.bits_0 in Hbit. discriminate.
Qed.

Lemma sub_1_no_wrap n : T_min < n -> n <= T_max -> sub n 1 = n - 1.
Proof using width_pos.
  intros Hlo Hhi. apply wrap_representable.
  unfold Alignment.representable. lia.
Qed.

Lemma is_power_of_two_pow2 k :
  0 <= k -> 2 ^ k <= T_max -> is_power_of_two (2 ^ k) = true.
Proof using width_pos.
  intros Hk Hmax. unfold Alignment.is_power_of_two.
  pose proof T_bounds. pose proof (Z.pow_pos_nonneg 2 k).
  rewrite sub_1_no_wrap by lia.
  rewrite land_pred_pow2 by assumption. reflexivity.
Qed.

Lemma is_power_of_two_other n :
  0 < n -> n <= T_max -> ~ power_of_two n -> is_power_of_two n = false.
Proof using width_pos.
  intros Hn Hmax Hnp. unfold Alignment.is_power_of_two.
  pose proof T_bounds.
  rewrite sub_1_no_wrap by lia.
  apply Z.eqb_neq. apply land_pred_not_pow2; assumption.
Qed.

Lemma is_power_of_two_0 : is_power_of_two 0 = true.
Proof. unfold Alignment.is_power_of_two. rewrite Z.land_0_l. reflexivity. Qed.

Lemma is_power_of_two_negative n :
  T_min < n -> n < 0 -> is_power_of_two n = false.
Proof using width_pos.
  intros Hlo Hneg. unfold Alignment.is_power_of_two.
  pose proof T_bounds.
  rewrite sub_1_no_wrap by lia.
  apply Z.eqb_neq.
  assert (Z.land n (n - 1) < 0) by (apply Z.land_neg; lia). lia.
Qed.

Lemma is_power_of_two_T_min : is_power_of_two T_min = true.
Proof using width_pos.
  unfold Alignment.is_power_of_two, Alignment.sub, Alignment.wrap,
    Alignment.T_min.
  pose proof pow2_width as Hw. pose proof half_pos as Hh.
  destruct is_signed; [|reflexivity].
  replace (- 2 ^ (width - 1) - 1 + 2 ^ (width - 1)) with (-1) by lia.
  replace ((-1) mod 2 ^ width) with (2 ^ width - 1)
    by (apply (Z.mod_unique _ _ (-1)); lia).
  replace (2 ^ width - 1 - 2 ^ (width - 1)) with (Z.ones (width - 1))
    by (rewrite Z.ones_equiv; lia).
  rewrite Z.land_ones by lia.
  rewrite Z.mod_opp_l_z; [reflexivity | lia |].
  apply Z.mod_same. lia.
Qed.

Lemma power_of_two_pos n : power_of_two n -> 0 < n.
Proof. intros [k [Hk ->]]. apply Z.pow_pos_nonneg; lia. Qed.


(** *** The masks of [padding] and [aligned] *)

Lemma land_low_mask x k : 0 <= k -> Z.land x (2 ^ k - 1) = x mod 2 ^ k.
Proof.
  intros Hk. rewrite Z.sub_1_r, <- Z.ones_equiv. apply Z.land_ones, Hk.
Qed.

Lemma land_high_mask x k : 0 <= k -> Z.land x (- 2 ^ k) = x - x mod 2 ^ k.
Proof.
  intros Hk.
  replace (- 2 ^ k) with (Z.lnot (Z.ones k))
    by (rewrite Z.ones_equiv; unfold Z.lnot; lia).
  rewrite <- Z.ldiff_land, Z.ldiff_ones_r by assumption.
  rewrite Z.shiftl_mul_pow2, Z.shiftr_div_pow2 by assumption.
  pose proof (Z.pow_pos_nonneg 2 k).
  rewrite (Z.div_mod x (2 ^ k)) at 2 by lia. lia.
Qed.

Lemma pow2_le_T_max k : 0 <= k -> 2 ^ k <= T_max -> k < width.
Proof using width_pos.
  intros Hk Hmax. apply (Z.pow_lt_mono_r_iff 2); try lia.
  unfold Alignment.T_max in Hmax.
  pose proof pow2_width. pose proof half_pos. destruct is_signed; lia.
Qed.

Lemma neg_value_low_bits v k :
  0 <= v <= T_max -> 0 <= k -> 2 ^ k <= T_max ->
  (sub (static_cast is_signed width 0) v) mod 2 ^ k = (- v) mod 2 ^ k.
Proof using width_pos.
  intros Hv Hk Hmax. unfold Alignment.static_cast.
  pose proof T_bounds as HT.
  rewrite (wrap_representable 0) by exact HT.
  unfold Alignment.sub. simpl (0 - v).
  pose proof (pow2_le_T_max k Hk Hmax) as Hkw.
  revert Hv HT. unfold Alignment.wrap, Alignment.T_max, Alignment.T_min.
  pose proof pow2_width. pose proof half_pos.
  destruct is_signed; cbv iota; intros Hv HT.
  - rewrite (Z.mod_small (- v + 2 ^ (width - 1))) by lia. f_equal. lia.
  - apply Z.mod_mod_divide. exists (2 ^ (width - k)).
    rewrite <- Z.pow_add_r by lia. f_equal. lia.
Qed.

Lemma land_neg_alignment x k :
  0 <= x <= T_max -> 0 <= k -> 2 ^ k <= T_max ->
  Z.land x (neg (2 ^ k)) = x - x mod 2 ^ k.
Proof using width_pos.
  intros Hx Hk Hmax. rewrite <- land_high_mask by assumption.
  pose proof (Z.pow_pos_nonneg 2 k).
  revert Hx Hmax.
  unfold Alignment.neg, Alignment.wrap, Alignment.T_max.
  pose proof pow2_width. pose proof half_pos.
  destruct is_signed; cbv iota; intros Hx Hmax.
  - rewrite Z.mod_small by lia. f_equal. lia.
  - rewrite <- Z.land_ones by lia.
    rewrite (Z.land_comm (- 2 ^ k)), Z.land_assoc, Z.land_ones by lia.
    rewrite Z.mod_small by lia. reflexivity.
Qed.

Lemma padding_value v k :
  0 <= v <= T_max -> 0 <= k -> 2 ^ k <= T_max ->
  padding v (2 ^ k) = Returned ((- v) mod 2 ^ k).
Proof using width_pos.
  intros Hv Hk Hmax. unfold Alignment.padding.
  replace (0 <=? v) with true by (symmetry; apply Z.leb_le; lia).
  rewrite is_power_of_two_pow2 by assumption. simpl. f_equal.
  pose proof T_bounds. pose proof (Z.pow_pos_nonneg 2 k).
  rewrite sub_1_no_wrap by lia.
  unfold Alignment.static_cast at 2.
  rewrite (wrap_representable (2 ^ k - 1))
    by (unfold Alignment.representable; lia).
  rewrite land_low_mask by assumption.
  apply neg_value_low_bits; assumption.
Qed.

Lemma aligned_value v k :
  0 <= v -> 0 <= k -> 2 ^ k <= T_max -> v + (2 ^ k - 1) <= T_max ->
  aligned v (2 ^ k) =
  Returned (v + (2 ^ k - 1) - (v + (2 ^ k - 1)) mod 2 ^ k).
Proof using width_pos.
  intros Hv Hk Hmax Hsum. unfold Alignment.aligned.
  replace (0 <=? v) with true by (symmetry; apply Z.leb_le; lia).
  rewrite is_power_of_two_pow2 by assumption. simpl. f_equal.
  pose proof T_bounds. pose proof (Z.pow_pos_nonneg 2 k).
  rewrite sub_1_no_wrap by lia.
  unfold Alignment.add.
  rewrite (wrap_representable (v + (2 ^ k - 1)))
    by (unfold Alignment.representable; lia).
  apply land_neg_alignment; lia.
Qed.

(** *** Specification of [is_power_of_two] *)

(** C6: [is_power_of_two] returns true for every [n = 2^k] with [k >= 0]
    that the type can hold, false for every other strictly positive
    number, and true for [0]. *)
Theorem is_power_of_two_spec :
  (forall k, 0 <= k -> 2 ^ k <= T_max -> is_power_of_two (2 ^ k) = true) /\
  (forall n, 0 < n <= T_max -> ~ power_of_two n ->
             is_power_of_two n = false) /\
  is_power_of_two 0 = true.
Proof using width_pos.
  split; [|split].
  - exact is_power_of_two_pow2.
  - intros n [Hn Hmax]. apply is_power_of_two_other; assumption.
  - exact is_power_of_two_0.
Qed.

(** *** Specification of [padding] and [aligned] *)

(** C3: for [value >= 0] and [alignment] a power of two, when
    [value + (alignment - 1)] does not overflow [T], both calls return,
    [aligned % alignment == 0], [aligned - value == padding] and
    [0 <= padding < alignment]; and [padding(10, 8) == 6],
    [aligned(10, 8) == 16], [padding(16, 8) == 0] in every type that holds
    17. *)
Theorem aligned_padding_spec :
  (forall value alignment,
      0 <= value -> power_of_two alignment -> alignment <= T_max ->
      value + (alignment - 1) <= T_max ->
      exists a p,
        aligned value alignment = Returned a /\
        padding value alignment = Returned p /\
        Z.rem a alignment = 0 /\
        sub a value = p /\ a - value = p /\
        0 <= p < alignment) /\
  (17 <= T_max ->
   padding 10 8 = Returned 6 /\ aligned 10 8 = Returned 16 /\
   padding 16 8 = Returned 0).
Proof using width_pos.
  split.
  - intros v al Hv [k [Hk ->]] Hmax Hsum.
    pose proof (Z.pow_pos_nonneg 2 k ltac:(lia) Hk) as Hpos.
    pose proof T_bounds as HT.
    rewrite aligned_value, padding_value by (trivial; lia).
    set (x := v + (2 ^ k - 1)).
    pose proof (Z.mod_pos_bound x (2 ^ k) Hpos) as Hm.
    pose proof (Z.div_mod x (2 ^ k) ltac:(lia)) as Hdm.
    assert (Hp : x - x mod 2 ^ k - v = (- v) mod 2 ^ k).
    { apply (Z.mod_unique _ _ (- (x / 2 ^ k))); [left|]; subst x; lia. }
    exists (x - x mod 2 ^ k), ((- v) mod 2 ^ k).
    repeat split; trivial.
    + rewrite Z.rem_mod_nonneg by lia.
      replace (x - x mod 2 ^ k) with (x / 2 ^ k * 2 ^ k) by lia.
      apply Z.mod_mul. lia.
    + unfold Alignment.sub. rewrite wrap_representable; [exact Hp|].
      unfold Alignment.representable. subst x. lia.
    + apply Z.mod_pos_bound; assumption.
    + apply Z.mod_pos_bound; assumption.
  - intros H17. pose proof T_bounds.
    change 8 with (2 ^ 3).
    rewrite !padding_value, aligned_value by (simpl; lia).
    repeat split.
Qed.

End Integer_facts.

(** ** Alignment with the integer promotions *)

Section Promoted_facts.

Variable int_width : Z.
Variable is_signed : bool.
Variable width : Z.
Hypothesis width_pos : 0 < width.
Hypothesis int_width_pos : 0 < int_width.

Local Abbreviation T_min := (Alignment.T_min is_signed width).
Local Abbreviation T_max := (Alignment.T_max is_signed width).
Local Abbreviation arithmetic :=
  (Promoted.arithmetic int_width is_signed width).
Local Abbreviation promoted_signed :=
  (Promoted.promoted_signed int_width is_signed width).
Local Abbreviation promoted_width :=
  (Promoted.promoted_width int_width width).

Lemma promoted_width_pos : 0 < promoted_width.
Proof using width_pos int_width_pos.
  unfold Promoted.promoted_width. destruct (width <? int_width); lia.
Qed.

(** [int] holds the sums and differences of two values of a narrower
    type. *)
Lemma promoted_narrow z :
  width < int_width -> - 2 ^ width <= z < 2 ^ width ->
  arithmetic z = Some z.
Proof using width_pos int_width_pos.
  intros Hnarrow Hz.
  unfold Promoted.arithmetic, Promoted.promoted_signed,
    Promoted.promoted_width, Alignment.T_min, Alignment.T_max.
  replace (width <? int_width) with true
    by (symmetry; apply Z.ltb_lt; exact Hnarrow).
  assert (Hp : 2 ^ width <= 2 ^ (int_width - 1))
    by (apply Z.pow_le_mono_r; lia).
  replace (_ && _) with true; [reflexivity|].
  symmetry. apply andb_true_iff. rewrite !Z.leb_le. lia.
Qed.

(** A signed type that is not promoted holds its own values. *)
Lemma promoted_wide_signed z :
  int_width <= width -> is_signed = true ->
  - 2 ^ (width - 1) <= z < 2 ^ (width - 1) ->
  arithmetic z = Some z.
Proof using width_pos int_width_pos.
  intros Hwide Hs Hz.
  unfold Promoted.arithmetic, Promoted.promoted_signed,
    Promoted.promoted_width, Alignment.T_min, Alignment.T_max.
  replace (width <? int_width) with false
    by (symmetry; apply Z.ltb_ge; exact Hwide).
  rewrite Hs.
  replace (_ && _) with true; [reflexivity|].
  symmetry. apply andb_true_iff. rewrite !Z.leb_le. lia.
Qed.

Lemma T_range :
  - 2 ^ (width - 1) <= T_min /\ T_max < 2 ^ width /\
  (is_signed = true -> T_min = - 2 ^ (width - 1) /\ T_max < 2 ^ (width - 1)).
Proof using width_pos.
  unfold Alignment.T_min, Alignment.T_max.
  pose proof (pow2_width width width_pos).
  pose proof (half_pos width width_pos).
  destruct is_signed; repeat split; (lia || discriminate).
Qed.

(** A signed promoted type holds every value of [T], and when [T] is
    narrower than [int] also the value below the least. *)
Lemma promoted_holds_T z :
  promoted_signed = true ->
  T_min - (if width <? int_width then 1 else 0) <= z <= T_max ->
  arithmetic z = Some z.
Proof using width_pos int_width_pos.
  intros Hps Hz.
  destruct T_range as [Hmin [Hmax Hsigned]].
  pose proof (pow2_width width width_pos).
  pose proof (half_pos width width_pos).
  destruct (Z.ltb_spec width int_width) as [Hnarrow | Hwide].
  - apply promoted_narrow; trivial. lia.
  - assert (Hs : is_signed = true).
    { revert Hps. unfold Promoted.promoted_signed.
      replace (width <? int_width) with false
        by (symmetry; apply Z.ltb_ge; exact Hwide).
      trivial. }
    destruct (Hsigned Hs). apply promoted_wide_signed; trivial. lia.
Qed.

Lemma promoted_unsigned :
  promoted_signed = false ->
  is_signed = false /\ promoted_width = width.
Proof.
  unfold Promoted.promoted_signed, Promoted.promoted_width.
  destruct (width <? int_width); [discriminate|]. intros ->. split; reflexivity.
Qed.

Lemma promoted_signed_cases :
  promoted_signed = true ->
  width < int_width \/ is_signed = true.
Proof.
  unfold Promoted.promoted_signed.
  destruct (Z.ltb_spec width int_width); [left; assumption|].
  intros ->. right. reflexivity.
Qed.

(** For the numbers that are not negative the promoted test is the test
    in [T]. *)
Lemma is_power_of_two_promoted_nonneg n :
  0 <= n <= T_max ->
  Promoted.is_power_of_two int_width is_signed width n =
  Some (Alignment.is_power_of_two is_signed width n).
Proof using width_pos int_width_pos.
  intros Hn. unfold Promoted.is_power_of_two, Alignment.is_power_of_two.
  pose proof (T_bounds is_signed width width_pos) as HT.
  destruct promoted_signed eqn:Hps.
  - rewrite promoted_holds_T; trivial.
    + destruct (Z.eq_dec n 0) as [-> | Hn0].
      * rewrite !Z.land_0_l. reflexivity.
      * rewrite sub_1_no_wrap by (trivial; lia). reflexivity.
    + destruct (promoted_signed_cases Hps) as [Hnarrow | Hs].
      * replace (width <? int_width) with true
          by (symmetry; apply Z.ltb_lt; exact Hnarrow). lia.
      * assert (T_min <= -1).
        { unfold Alignment.T_min. rewrite Hs.
          pose proof (half_pos width width_pos). lia. }
        destruct (width <? int_width); lia.
  - destruct (promoted_unsigned Hps) as [Hs Hpw].
    unfold Promoted.arithmetic. rewrite Hps, Hpw.
    unfold Alignment.sub, Alignment.wrap. rewrite Hs. reflexivity.
Qed.

(** A negative number fails the test whenever its predecessor is in the
    promoted type. *)
Lemma is_power_of_two_promoted_negative n :
  is_signed = true -> T_min <= n -> n < 0 ->
  width < int_width \/ T_min < n ->
  Promoted.is_power_of_two int_width is_signed width n = Some false.
Proof using width_pos int_width_pos.
  intros Hs Hlo Hneg Hroom. unfold Promoted.is_power_of_two.
  pose proof (T_bounds is_signed width width_pos) as HT.
  rewrite promoted_holds_T.
  - f_equal. apply Z.eqb_neq.
    assert (Z.land n (n - 1) < 0) by (apply Z.land_neg; lia). lia.
  - unfold Promoted.promoted_signed. rewrite Hs.
    destruct (width <? int_width); reflexivity.
  - destruct (Z.ltb_spec width int_width); lia.
Qed.

(** The predecessor of the least value of a signed type that is not
    promoted does not exist: the subtraction overflows. *)
Lemma is_power_of_two_promoted_overflow :
  is_signed = true -> int_width <= width ->
  Promoted.is_power_of_two int_width is_signed width T_min = None.
Proof using width_pos int_width_pos.
  intros Hs Hwide.
  unfold Promoted.is_power_of_two, Promoted.arithmetic,
    Promoted.promoted_signed, Promoted.promoted_width.
  replace (width <? int_width) with false
    by (symmetry; apply Z.ltb_ge; exact Hwide).
  rewrite Hs. unfold Alignment.T_min.
  replace (- 2 ^ (width - 1) <=? - 2 ^ (width - 1) - 1) with false
    by (symmetry; apply Z.leb_gt; lia).
  reflexivity.
Qed.


(** *** Where the two models meet

    For a value that is not negative and a power-of-two alignment, with
    the sum of [aligned] inside [T], the promoted functions return what the
    functions that work in [T] return. *)

Lemma arithmetic_small z :
  0 <= z <= T_max -> arithmetic z = Some z.
Proof using width_pos int_width_pos.
  intros Hz. pose proof (T_bounds is_signed width width_pos) as HT.
  destruct promoted_signed eqn:Hps.
  - apply promoted_holds_T; trivial. destruct (width <? int_width); lia.
  - destruct (promoted_unsigned Hps) as [Hs Hpw].
    unfold Promoted.arithmetic. rewrite Hps, Hpw. f_equal.
    apply Z.mod_small. destruct T_range as [_ [Hmax _]]. lia.
Qed.

Lemma padding_promoted value k :
  0 <= value <= T_max -> 0 <= k -> 2 ^ k <= T_max ->
  Promoted.padding int_width is_signed width value (2 ^ k) =
  Some (Alignment.padding is_signed width value (2 ^ k)).
Proof using width_pos int_width_pos.
  intros Hv Hk Hmax.
  pose proof (Z.pow_pos_nonneg 2 k ltac:(lia) Hk) as Hal.
  pose proof (T_bounds is_signed width width_pos) as HT.
  rewrite (padding_value is_signed width width_pos) by assumption.
  unfold Promoted.padding.
  replace (0 <=? value) with true by (symmetry; apply Z.leb_le; lia).
  rewrite is_power_of_two_promoted_nonneg by lia.
  rewrite is_power_of_two_pow2 by assumption. cbn [negb].
  unfold Promoted.to_T.
  rewrite (wrap_representable is_signed width width_pos 0) by exact HT.
  rewrite (arithmetic_small (2 ^ k - 1)) by lia.
  rewrite (wrap_representable is_signed width width_pos (2 ^ k - 1))
    by (unfold Alignment.representable; lia).
  destruct promoted_signed eqn:Hps.
  - assert (Hneg : arithmetic (0 - value) = Some (0 - value)).
    { destruct T_range as [Hmin [Hmax' Hsigned]].
      pose proof (pow2_width width width_pos).
      pose proof (half_pos width width_pos).
      destruct (Z.ltb_spec width int_width) as [Hnarrow | Hwide].
      - apply promoted_narrow; trivial. lia.
      - assert (Hs : is_signed = true).
        { revert Hps. unfold Promoted.promoted_signed.
          replace (width <? int_width) with false
            by (symmetry; apply Z.ltb_ge; exact Hwide).
          trivial. }
        destruct (Hsigned Hs). apply promoted_wide_signed; trivial. lia. }
    rewrite Hneg. rewrite land_low_mask by assumption.
    simpl (0 - value). reflexivity.
  - destruct (promoted_unsigned Hps) as [Hs Hpw].
    unfold Promoted.arithmetic. rewrite Hps, Hpw.
    rewrite land_low_mask by assumption.
    do 2 f_equal. simpl (0 - value).
    apply Z.mod_mod_divide.
    pose proof (pow2_le_T_max is_signed width width_pos k Hk Hmax).
    exists (2 ^ (width - k)). rewrite <- Z.pow_add_r by lia. f_equal. lia.
Qed.

Lemma aligned_promoted value k :
  0 <= value -> 0 <= k -> 2 ^ k <= T_max ->
  value + (2 ^ k - 1) <= T_max ->
  Promoted.aligned int_width is_signed width value (2 ^ k) =
  Some (Alignment.aligned is_signed width value (2 ^ k)).
Proof using width_pos int_width_pos.
  intros Hv Hk Hmax Hsum.
  pose proof (Z.pow_pos_nonneg 2 k ltac:(lia) Hk) as Hal.
  pose proof (T_bounds is_signed width width_pos) as HT.
  rewrite (aligned_value is_signed width width_pos) by assumption.
  unfold Promoted.aligned.
  replace (0 <=? value) with true by (symmetry; apply Z.leb_le; lia).
  rewrite is_power_of_two_promoted_nonneg by lia.
  rewrite is_power_of_two_pow2 by assumption. cbn [negb].
  rewrite (arithmetic_small (2 ^ k - 1)) by lia.
  rewrite (arithmetic_small (value + (2 ^ k - 1))) by lia.
  set (x := value + (2 ^ k - 1)).
  pose proof (Z.mod_pos_bound x (2 ^ k) Hal) as Hm.
  assert (Hland : forall negated,
             arithmetic (- 2 ^ k) = Some negated ->
             Z.land x negated = x - x mod 2 ^ k).
  { intros negated. destruct promoted_signed eqn:Hps.
    - assert (Hneg : arithmetic (- 2 ^ k) = Some (- 2 ^ k)).
      { destruct T_range as [Hmin [Hmax' Hsigned]].
        pose proof (pow2_width width width_pos).
        pose proof (half_pos width width_pos).
        destruct (Z.ltb_spec width int_width) as [Hnarrow | Hwide].
        - apply promoted_narrow; trivial. lia.
        - assert (Hs : is_signed = true).
          { revert Hps. unfold Promoted.promoted_signed.
            replace (width <? int_width) with false
              by (symmetry; apply Z.ltb_ge; exact Hwide).
            trivial. }
          destruct (Hsigned Hs). apply promoted_wide_signed; trivial. lia. }
      rewrite Hneg. intros E. injection E as <-.
      apply land_high_mask, Hk.
    - destruct (promoted_unsigned Hps) as [Hs Hpw].
      unfold Promoted.arithmetic. rewrite Hps, Hpw.
      intros E. injection E as <-.
      pose proof (land_neg_alignment is_signed width width_pos x k
                    ltac:(subst x; lia) Hk Hmax) as Hold.
      unfold Alignment.neg, Alignment.wrap in Hold. rewrite Hs in Hold.
      exact Hold. }
  destruct (arithmetic (- 2 ^ k)) as [negated|] eqn:Hneg.
  - rewrite (Hland negated eq_refl). unfold Promoted.to_T.
    rewrite wrap_representable; trivial.
    unfold Alignment.representable. subst x. lia.
  - exfalso. destruct promoted_signed eqn:Hps.
    + destruct T_range as [Hmin [Hmax' Hsigned]].
      pose proof (pow2_width width width_pos).
      pose proof (half_pos width width_pos).
      destruct (Z.ltb_spec width int_width) as [Hnarrow | Hwide].
      * rewrite promoted_narrow in Hneg by (trivial; lia). discriminate.
      * assert (Hs : is_signed = true).
        { revert Hps. unfold Promoted.promoted_signed.
          replace (width <? int_width) with false
            by (symmetry; apply Z.ltb_ge; exact Hwide).
          trivial. }
        destruct (Hsigned Hs).
        rewrite promoted_wide_signed in Hneg by (trivial; lia).
        discriminate.
    + unfold Promoted.arithmetic in Hneg. rewrite Hps in Hneg.
      discriminate.
Qed.

End Promoted_facts.

(** C10, as the code has it: in a signed [T], [is_power_of_two] is false
    for every negative number other than the least value; for the least
    value it is false when [T] is narrower than [int], the operands being
    promoted, and undefined when [T] is [int] or wider, the subtraction
    overflowing: only if that subtraction wraps to the greatest value is
    the result true. *)
Theorem is_power_of_two_signed_negative int_width width :
  0 < width -> 0 < int_width ->
  (forall n, Alignment.T_min true width < n -> n < 0 ->
             Promoted.is_power_of_two int_width true width n = Some false) /\
  (width < int_width ->
   Promoted.is_power_of_two int_width true width
     (Alignment.T_min true width) = Some false) /\
  (int_width <= width ->
   Promoted.is_power_of_two int_width true width
     (Alignment.T_min true width) = None /\
   Alignment.sub true width (Alignment.T_min true width) 1 =
     Alignment.T_max true width /\
   Alignment.is_power_of_two true width (Alignment.T_min true width) = true).
Proof.
  intros Hw Hi. split; [|split].
  - intros n Hlo Hneg.
    apply is_power_of_two_promoted_negative; trivial; lia.
  - intros Hnarrow.
    assert (Alignment.T_min true width < 0)
      by (unfold Alignment.T_min; pose proof (half_pos width Hw); lia).
    apply is_power_of_two_promoted_negative; trivial; lia.
  - intros Hwide. split; [|split].
    + apply is_power_of_two_promoted_overflow; trivial.
    + unfold Alignment.sub, Alignment.wrap, Alignment.T_min, Alignment.T_max.
      pose proof (pow2_width width Hw). pose proof (half_pos width Hw).
      replace (- 2 ^ (width - 1) - 1 + 2 ^ (width - 1)) with (-1) by lia.
      replace ((-1) mod 2 ^ width) with (2 ^ width - 1)
        by (apply (Z.mod_unique _ _ (-1)); lia).
      lia.
    + apply is_power_of_two_T_min. exact Hw.
Qed.

(** C10 as stated fails: with a 32-bit [int], the least values of the
    8-bit and of the 16-bit signed type are promoted, their predecessors
    do not wrap, and the test answers false. *)
Lemma is_power_of_two_narrow_minimum :
  Promoted.is_power_of_two 32 true 8 (-128) = Some false /\
  Promoted.is_power_of_two 32 true 16 (-32768) = Some false /\
  ~ (forall width, 0 < width ->
        Promoted.is_power_of_two 32 true width (Alignment.T_min true width) =
        Some true).
Proof.
  split; [reflexivity|]. split; [reflexivity|].
  intros Hall. specialize (Hall 8 ltac:(lia)). discriminate Hall.
Qed.

(** The test on negative numbers of [int] and of an 8-bit type, [int]
    being 32 bits wide. *)
Lemma is_power_of_two_signed_negative_int :
  Promoted.is_power_of_two 32 true 32 (-8) = Some false /\
  Promoted.is_power_of_two 32 true 8 (Alignment.T_min true 8) = Some false /\
  Promoted.is_power_of_two 32 true 32 (Alignment.T_min true 32) = None.
Proof.
  destruct (is_power_of_two_signed_negative 32 32 ltac:(lia) ltac:(lia))
    as [Hn [_ Hwide]].
  destruct (is_power_of_two_signed_negative 32 8 ltac:(lia) ltac:(lia))
    as [_ [Hnarrow _]].
  split; [apply Hn; [vm_compute; reflexivity | lia]|].
  split; [apply Hnarrow; lia|].
  apply Hwide. lia.
Defined.


(** The test on [int] and on a 64-bit unsigned type. *)
Lemma is_power_of_two_spec_int :
  0 < 32 /\
  Alignment.is_power_of_two true 32 (2 ^ 4) = true /\
  Alignment.is_power_of_two true 32 12 = false /\
  Alignment.is_power_of_two false 64 0 = true.
Proof.
  split; [lia|].
  destruct (is_power_of_two_spec true 32 ltac:(lia)) as [Hp [Hn _]].
  destruct (is_power_of_two_spec false 64 ltac:(lia)) as [_ [_ Hz]].
  split; [apply Hp; vm_compute; discriminate|].
  split; [|exact Hz].
  apply Hn; [vm_compute; split; [reflexivity | discriminate]|].
  intros [k [Hk E]].
  assert (k < 4) by (apply (Z.pow_lt_mono_r_iff 2); lia).
  assert (Hc : k = 0 \/ k = 1 \/ k = 2 \/ k = 3) by lia.
  destruct Hc as [-> | [-> | [-> | ->]]]; discriminate.
Defined.

(** [padding] and [aligned] on [int]. *)
Lemma aligned_padding_spec_int :
  0 < 32 /\
  Alignment.padding true 32 10 8 = Returned 6 /\
  Alignment.aligned true 32 10 8 = Returned 16 /\
  Alignment.padding true 32 16 8 = Returned 0.
Proof.
  split; [lia|].
  apply (aligned_padding_spec true 32 ltac:(lia)).
  vm_compute. discriminate.
Defined.



(** ** Interval *)

Section Interval_facts.

Import Intervals.

Context {T : Type} {value_type : Value_type T}.

Lemma Interval_typed_returned type min max this :
  Interval_typed type min max = Returned this ->
  this = {| type_ := type; min_ := min; max_ := max |}.
Proof.
  unfold Interval_typed. cbn [type_ min_ max_].
  destruct (negb _); intros E; inversion E. reflexivity.
Qed.

Lemma Interval_bounds_returned min max this :
  Interval_bounds min max = Returned this ->
  this = {| type_ := closed; min_ := min; max_ := max |}.
Proof.
  unfold Interval_bounds. cbn [type_ min_ max_].
  destruct (negb _); intros E; inversion E. reflexivity.
Qed.

Lemma Interval_typed_throws type min max :
  throws (Interval_typed type min max) =
  match type with
  | closed => negb (le min max)
  | _ => negb (lt min max)
  end.
Proof.
  unfold Interval_typed. cbn [type_ min_ max_].
  destruct type; cbn [Interval_type_eqb negb andb orb];
    destruct (le min max), (lt min max); reflexivity.
Qed.

End Interval_facts.

(** The four-enumerator model is the enum-class model at the values of
    the enumerators: the same construction and the same membership. *)
Lemma Enum_class_of_Interval
  (T : Type) (value_type : Intervals.Value_type T)
  (type : Intervals.Interval_type) (min max value : T) :
  Enum_class.enumerator (Enum_class.underlying type) = Some type /\
  Enum_class.Interval_typed (Enum_class.underlying type) min max =
    match Intervals.Interval_typed type min max with
    | Returned this => Returned (Enum_class.of_Interval this)
    | Thrown e => Thrown e
    end /\
  Enum_class.has
    (Enum_class.of_Interval (Intervals.Build_Interval type min max)) value =
    Statistic.Passed
      (Intervals.has (Intervals.Build_Interval type min max) value).
Proof.
  split; [destruct type; reflexivity|]. split.
  - unfold Enum_class.Interval_typed, Intervals.Interval_typed.
    cbn [Enum_class.type_ Enum_class.min_ Enum_class.max_
         Intervals.type_ Intervals.min_ Intervals.max_].
    destruct type; cbn [Enum_class.underlying Intervals.Interval_type_eqb
                        Z.eqb negb andb orb];
      destruct (Intervals.le min max), (Intervals.lt min max); reflexivity.
  - destruct type; reflexivity.
Qed.





(** C4: over a totally ordered [T], [Interval(min, max)] throws
    [std::invalid_argument] exactly when [min > max] and otherwise builds
    the closed interval; [Interval(type, min, max)] throws exactly when
    [type] is closed and [min > max], or [type] is not closed and
    [min >= max], and otherwise builds the interval of that type;
    [Interval(5, 1)] and [Interval(Type::open, 3, 3)] throw.  The four
    factories do none of this: each returns a braced list through the
    typed constructor, which is declared [explicit], so every call of a
    factory, [make_open(3, 3)] among them, is ill-formed; the assignment
    [*this = {}] of [release], through the constructor that is not
    [explicit], is well-formed. *)
Theorem Interval_construction_spec
  (T : Type) (value_type : Intervals.Value_type T) :
  Intervals.totally_ordered T ->
  (forall min max : T,
      (throws (Intervals.Interval_bounds min max) = true <->
       Intervals.lt max min = true) /\
      (Intervals.lt max min = false ->
       Intervals.Interval_bounds min max =
       Returned (Intervals.Build_Interval Intervals.closed min max))) /\
  (forall (type : Intervals.Interval_type) (min max : T),
      (throws (Intervals.Interval_typed type min max) = true <->
       (type = Intervals.closed /\ Intervals.lt max min = true) \/
       (type <> Intervals.closed /\ Intervals.le max min = true)) /\
      (throws (Intervals.Interval_typed type min max) = false ->
       Intervals.Interval_typed type min max =
       Returned (Intervals.Build_Interval type min max))) /\
  (forall min max : T,
      Intervals.make_closed min max = Intervals.ill_formed /\
      Intervals.make_open min max = Intervals.ill_formed /\
      Intervals.make_lopen min max = Intervals.ill_formed /\
      Intervals.make_ropen min max = Intervals.ill_formed) /\
  Intervals.copy_list_initialization Intervals.Interval_default_is_explicit
    (@Intervals.Interval_default T value_type) =
    Intervals.well_formed Intervals.Interval_default /\
  Intervals.Interval_bounds 5 1 =
    Thrown (invalid_argument Intervals.invalid_closed) /\
  Intervals.Interval_typed Intervals.open 3 3 =
    Thrown (invalid_argument Intervals.invalid_typed) /\
  Intervals.make_open 3 3 = Intervals.ill_formed.
Proof.
  intros Htotal.
  assert (Hle : forall a b : T,
             negb (Intervals.le a b) = Intervals.lt b a)
    by (intros a b; symmetry; apply Htotal).
  assert (Hlt : forall a b : T,
             negb (Intervals.lt a b) = Intervals.le b a)
    by (intros a b; rewrite (Htotal a b); apply negb_involutive).
  assert (Htyped : forall type min max,
             throws (Intervals.Interval_typed type min max) = true <->
             (type = Intervals.closed /\ Intervals.lt max min = true) \/
             (type <> Intervals.closed /\ Intervals.le max min = true)).
  { intros type min max. rewrite Interval_typed_throws.
    destruct type; rewrite ?Hle, ?Hlt; split;
      solve [ intros E; (left + right); split; (exact E || discriminate
                                               || reflexivity)
            | intros [[E1 E2] | [E1 E2]];
              (exact E2 || discriminate E1 || (exfalso; apply E1; reflexivity))
            ]. }
  split; [|split; [|split]].
  - intros min max. unfold Intervals.Interval_bounds.
    cbn [Intervals.type_ Intervals.min_ Intervals.max_].
    rewrite Hle. destruct (Intervals.lt max min); simpl; split;
      (reflexivity || discriminate || trivial).
  - intros type min max. split; [apply Htyped|].
    unfold Intervals.Interval_typed.
    cbn [Intervals.type_ Intervals.min_ Intervals.max_].
    destruct (negb _); simpl; [discriminate | reflexivity].
  - intros min max. repeat split.
  - repeat split.
Qed.

Lemma Z_totally_ordered : Intervals.totally_ordered Z.
Proof. intros a b. apply Z.ltb_antisym. Qed.

(** Construction over the integers: [Interval(Type::lopen, 4, 4)] throws
    and [Interval(1, 5)] is built. *)
Lemma Interval_construction_spec_Z :
  throws (Intervals.Interval_typed Intervals.lopen 4 4) = true /\
  Intervals.Interval_bounds 1 5 =
    Returned (Intervals.Build_Interval Intervals.closed 1 5).
Proof.
  destruct (Interval_construction_spec Z _ Z_totally_ordered)
    as [Hb [Ht _]].
  split.
  - apply (Ht Intervals.lopen 4 4). right. split; [discriminate|reflexivity].
  - apply (Hb 1 5). reflexivity.
Defined.

(** C5: on every interval built by a constructor from [min] and [max],
    [release] returns the pair [(min, max)] and leaves the
    default-constructed interval: closed, with [T{}] at both ends; on
    [[2, 9]] it returns [(2, 9)]. *)
Theorem release_spec
  (T : Type) (value_type : Intervals.Value_type T)
  (type : Intervals.Interval_type) (min max : T)
  (this : Intervals.Interval T) :
  Intervals.Interval_typed type min max = Returned this \/
  Intervals.Interval_bounds min max = Returned this ->
  fst (Intervals.release this) = (min, max) /\
  snd (Intervals.release this) = Intervals.Interval_default /\
  Intervals.type (snd (Intervals.release this)) = Intervals.closed /\
  Intervals.min (snd (Intervals.release this)) = Intervals.value_init /\
  Intervals.max (snd (Intervals.release this)) = Intervals.value_init /\
  option_map Intervals.release
    (returned (Intervals.Interval_typed Intervals.closed 2 9)) =
    Some ((2, 9), Intervals.Interval_default).
Proof.
  intros [E | E];
    [apply Interval_typed_returned in E
    |apply Interval_bounds_returned in E];
    subst this; repeat split.
Qed.

(** [release] on the open interval (2, 9) over the integers. *)
Lemma release_spec_Z :
  Intervals.Interval_typed Intervals.open 2 9 =
    Returned (Intervals.Build_Interval Intervals.open 2 9) /\
  fst (Intervals.release (Intervals.Build_Interval Intervals.open 2 9)) =
    (2, 9) /\
  snd (Intervals.release (Intervals.Build_Interval Intervals.open 2 9)) =
    Intervals.Build_Interval Intervals.closed 0 0.
Proof.
  split; [reflexivity|].
  destruct (release_spec Z _ Intervals.open 2 9
              (Intervals.Build_Interval Intervals.open 2 9)
              ltac:(left; reflexivity))
    as [Hp [Hd _]].
  split; [exact Hp | exact Hd].
Defined.

(** ** Statistic *)

Section Empty_and_single.

Import Statistic.

(** C9, as the code has it: on an empty collection the loops of [avg] and
    [variance] never run, so both return [+0.0] and nothing is divided;
    the sample variance of one element divides by zero, and its sum is NaN
    when the element minus [avg] is zero or NaN, which fails the assertion,
    and [+infinity] otherwise. *)
Theorem empty_and_single_spec :
  avg (@nil double) = S754_zero false /\
  (forall (a : double) (general : bool),
      variance (@nil double) a general = Passed (S754_zero false)) /\
  (forall general : bool,
      variance_of (@nil double) general = Passed (S754_zero false)) /\
  (forall x a : double,
      denominator [x] false = S754_zero false /\
      variance_sum [x] a false =
        match minus x a with
        | S754_zero _ | S754_nan => S754_nan
        | S754_infinity _ | S754_finite _ _ _ => S754_infinity false
        end /\
      variance [x] a false =
        match minus x a with
        | S754_zero _ | S754_nan => Assertion_failed
        | S754_infinity _ | S754_finite _ _ _ =>
            Passed (S754_infinity false)
        end /\
      division_by_zero_class (variance_sum [x] a false) = true).
Proof.
  split; [reflexivity|]. split; [reflexivity|]. split; [reflexivity|].
  intros x a.
  assert (Hden : denominator [x] false = S754_zero false) by reflexivity.
  split; [exact Hden|].
  unfold variance, variance_sum. rewrite Hden.
  cbn [fold_left]. cbn [minus plus times divide zero ge_zero binary64].
  destruct (SFsub prec emax x a) as [s | s | | s m e];
    repeat split; destruct s; reflexivity.
Qed.

(** C9 as stated fails: on an empty collection [avg] and both forms of
    [variance] return [+0.0], which is neither NaN nor an infinity. *)
Lemma empty_input_returns_zero :
  division_by_zero_class (avg (@nil double)) = false /\
  variance (@nil double) (avg (@nil double)) true = Passed (S754_zero false) /\
  variance_of (@nil double) false = Passed (S754_zero false) /\
  ~ (division_by_zero_class (avg (@nil double)) = true).
Proof.
  repeat split. discriminate.
Qed.

End Empty_and_single.

(** *** The size of the data *)

Section Sizes.

Import Statistic.

Lemma size_t_sub_small (n k : Z) :
  0 <= k <= n -> n < 2 ^ 64 -> size_t_sub n k = n - k.
Proof.
  intros Hk Hn. unfold size_t_sub. apply Z.mod_small. lia.
Qed.


End Sizes.

(** *** Signs of binary64 results *)

Section Binary64_signs.

Import Statistic.

Lemma fexp_binary64 (x : Z) : fexp prec emax x = Z.max (x - 53) (-1074).
Proof. reflexivity. Qed.

Lemma digits2_pos_size (p : positive) : digits2_pos p = Pos.size p.
Proof. induction p; simpl; congruence. Qed.

Lemma Zdigits2_log2 (m : Z) : 0 < m -> Zdigits2 m = Z.log2 m + 1.
Proof.
  destruct m as [|p|p]; try discriminate. intros _. simpl Zdigits2.
  destruct p; simpl; rewrite ?digits2_pos_size; lia.
Qed.

Lemma Zdigits2_nonneg (m : Z) : 0 <= Zdigits2 m.
Proof. destruct m; simpl; lia. Qed.

Lemma Zdigits2_positive (m : Z) : 0 < m -> 0 < Zdigits2 m.
Proof. destruct m; simpl; lia. Qed.

Lemma Zdigits2_positive_inv (m : Z) : 0 <= m -> 0 < Zdigits2 m -> 0 < m.
Proof. destruct m; simpl; lia. Qed.

Lemma Zdigits2_succ_le (m : Z) :
  0 < m -> Zdigits2 (m + 1) <= Zdigits2 m + 1.
Proof.
  intros Hm. rewrite !Zdigits2_log2 by lia.
  assert (Z.log2 (m + 1) <= Z.log2 (2 * m))
    by (apply Z.log2_le_mono; lia).
  rewrite Z.log2_double in * by assumption. lia.
Qed.

Lemma Zdigits2_shift_left (p d : positive) :
  Zdigits2 (Zpos (Pos.iter xO p d)) = Zdigits2 (Zpos p) + Zpos d.
Proof.
  induction d as [|d IH] using Pos.peano_ind.
  - cbn [Pos.iter Zdigits2 digits2_pos]. lia.
  - rewrite Pos.iter_succ. cbn [Zdigits2 digits2_pos] in *. lia.
Qed.

(** One step of the right shift drops one digit and keeps the sign. *)
Lemma shr_1_digits (mrs : shr_record) :
  0 <= shr_m mrs ->
  0 <= shr_m (shr_1 mrs) /\
  Zdigits2 (shr_m (shr_1 mrs)) = Z.max (Zdigits2 (shr_m mrs) - 1) 0.
Proof.
  destruct mrs as [m r s]. cbn [shr_m].
  destruct m as [|p|p]; [| |lia]; intros _.
  - cbn [shr_1 shr_m Zdigits2]. lia.
  - destruct p; cbn [shr_1 shr_m Zdigits2 digits2_pos]; lia.
Qed.

Lemma iter_shr_1_digits (n : positive) (mrs : shr_record) :
  0 <= shr_m mrs ->
  0 <= shr_m (iter_pos shr_1 n mrs) /\
  Zdigits2 (shr_m (iter_pos shr_1 n mrs)) =
    Z.max (Zdigits2 (shr_m mrs) - Zpos n) 0.
Proof.
  revert mrs. induction n as [n IH | n IH |]; intros mrs Hm; simpl iter_pos.
  - destruct (shr_1_digits mrs Hm) as [H1 E1].
    destruct (IH _ H1) as [H2 E2]. destruct (IH _ H2) as [H3 E3].
    split; [exact H3|]. rewrite E3, E2, E1. lia.
  - destruct (IH _ Hm) as [H2 E2]. destruct (IH _ H2) as [H3 E3].
    split; [exact H3|]. rewrite E3, E2. lia.
  - destruct (shr_1_digits mrs Hm) as [H1 E1].
    split; [exact H1|]. rewrite E1. lia.
Qed.

Lemma shr_record_of_loc_m (m : Z) (l : location) :
  shr_m (shr_record_of_loc m l) = m.
Proof. destruct l as [|[]]; reflexivity. Qed.

(** The mantissa after [shr_fexp] is not negative, and is positive when the
    exponent is at least the least exponent of binary64. *)
Lemma shr_fexp_digits (m e : Z) (l : location) :
  0 <= m ->
  let result := shr_fexp prec emax m e l in
  let n := fexp prec emax (Zdigits2 m + e) - e in
  0 <= shr_m (fst result) /\
  Zdigits2 (shr_m (fst result)) =
    (if 0 <? n then Z.max (Zdigits2 m - n) 0 else Zdigits2 m) /\
  snd result = e + Z.max n 0.
Proof.
  intros Hm result n. subst result. unfold shr_fexp, shr. fold n.
  pose proof (shr_record_of_loc_m m l) as Hrec.
  destruct n as [|p|p] eqn:En; simpl fst; simpl snd.
  - rewrite Hrec. repeat split; (assumption || lia).
  - destruct (iter_shr_1_digits p (shr_record_of_loc m l)) as [H1 E1];
      [rewrite Hrec; assumption|].
    rewrite Hrec in E1. repeat split; (assumption || lia).
  - rewrite Hrec. repeat split; (assumption || lia).
Qed.

Lemma shr_fexp_nonneg (m e : Z) (l : location) :
  0 <= m -> 0 <= shr_m (fst (shr_fexp prec emax m e l)).
Proof. intros Hm. apply (shr_fexp_digits m e l Hm). Qed.

Lemma shr_fexp_positive (m e : Z) (l : location) :
  0 < m -> -1074 <= e ->
  0 < shr_m (fst (shr_fexp prec emax m e l)) /\
  Zdigits2 (shr_m (fst (shr_fexp prec emax m e l))) <= Zdigits2 m /\
  e <= snd (shr_fexp prec emax m e l) <= e + Zdigits2 m.
Proof.
  intros Hm He.
  destruct (shr_fexp_digits m e l ltac:(lia)) as [H0 [Hd Hs]].
  pose proof (Zdigits2_positive m Hm) as Hdm.
  rewrite fexp_binary64 in Hd, Hs.
  destruct (Z.ltb_spec 0 (Z.max (Zdigits2 m + e - 53) (-1074) - e)) as [Hn|Hn].
  - split; [|split].
    + apply Zdigits2_positive_inv; [exact H0|]. rewrite Hd. lia.
    + rewrite Hd. lia.
    + rewrite Hs. lia.
  - split; [|split].
    + apply Zdigits2_positive_inv; [exact H0|]. rewrite Hd. lia.
    + rewrite Hd. lia.
    + rewrite Hs. lia.
Qed.

Lemma round_nearest_even_bounds (m : Z) (l : location) :
  m <= round_nearest_even m l <= m + 1.
Proof.
  destruct l as [|[]]; cbn [round_nearest_even];
    try destruct (Z.even m); lia.
Qed.

(** Rounding gives the sign it is asked for, and never NaN. *)
Lemma binary_round_aux_sign (s : bool) (m e : Z) (l : location) :
  0 <= m -> has_sign s (binary_round_aux prec emax s m e l).
Proof.
  intros Hm. unfold binary_round_aux.
  pose proof (shr_fexp_nonneg m e l Hm) as H1.
  destruct (shr_fexp prec emax m e l) as [mrs' e'].
  cbn [fst] in H1.
  pose proof (round_nearest_even_bounds (shr_m mrs')
                (loc_of_shr_record mrs')) as Hr.
  pose proof (shr_fexp_nonneg
                (round_nearest_even (shr_m mrs') (loc_of_shr_record mrs'))
                e' loc_Exact ltac:(lia)) as H2.
  destruct (shr_fexp prec emax _ e' loc_Exact) as [mrs'' e''].
  cbn [fst] in H2.
  destruct (shr_m mrs'') as [|p|p]; [reflexivity | | lia].
  destruct (e'' <=? emax - prec); reflexivity.
Qed.

(** Rounding a positive mantissa whose exponent is neither too small nor
    too large gives a finite non-zero number. *)
Lemma binary_round_aux_finite (s : bool) (m e : Z) (l : location) :
  0 < m -> -1074 <= e -> e + 2 * Zdigits2 m + 1 <= 971 ->
  exists m' e', binary_round_aux prec emax s m e l = S754_finite s m' e'.
Proof.
  intros Hm He Hbound. unfold binary_round_aux.
  destruct (shr_fexp_positive m e l Hm He) as [H1 [D1 E1]].
  destruct (shr_fexp prec emax m e l) as [mrs' e'].
  cbn [fst snd] in H1, D1, E1.
  pose proof (round_nearest_even_bounds (shr_m mrs')
                (loc_of_shr_record mrs')) as Hr.
  set (m2 := round_nearest_even (shr_m mrs') (loc_of_shr_record mrs')) in *.
  assert (D2 : Zdigits2 m2 <= Zdigits2 m + 1).
  { assert (Hc : m2 = shr_m mrs' \/ m2 = shr_m mrs' + 1) by lia.
    destruct Hc as [-> | ->]; [lia|].
    pose proof (Zdigits2_succ_le (shr_m mrs') H1). lia. }
  destruct (shr_fexp_positive m2 e' loc_Exact ltac:(lia) ltac:(lia))
    as [H3 [D3 E3]].
  destruct (shr_fexp prec emax m2 e' loc_Exact) as [mrs'' e''].
  cbn [fst snd] in H3, D3, E3.
  destruct (shr_m mrs'') as [|p|p]; [lia | | lia].
  replace (e'' <=? emax - prec) with true.
  - exists p, e''. reflexivity.
  - symmetry. apply Z.leb_le. change (emax - prec) with 971. lia.
Qed.

Lemma binary_round_sign (s : bool) (m : positive) (e : Z) :
  has_sign s (binary_round prec emax s m e).
Proof.
  unfold binary_round. destruct (shl_align m e _) as [mz ez].
  apply binary_round_aux_sign. lia.
Qed.

Lemma binary_normalize_not_nan (m e : Z) :
  exists s, has_sign s (binary_normalize prec emax m e false).
Proof.
  destruct m as [|p|p]; cbn [binary_normalize].
  - exists false. reflexivity.
  - exists false. apply binary_round_sign.
  - exists true. apply binary_round_sign.
Qed.

Lemma binary_normalize_positive (m e : Z) :
  0 <= m -> has_sign false (binary_normalize prec emax m e false).
Proof.
  destruct m as [|p|p]; cbn [binary_normalize]; intros Hm.
  - reflexivity.
  - apply binary_round_sign.
  - lia.
Qed.

(** The conversion of a positive [std::size_t] is finite and positive. *)
Lemma double_of_Z_positive (n : Z) :
  1 <= n < 2 ^ 64 -> exists m e, double_of_Z n = S754_finite false m e.
Proof.
  intros [Hlo Hhi]. destruct n as [|p|p]; try lia.
  unfold double_of_Z. cbn [binary_normalize]. unfold binary_round.
  assert (Hd : 1 <= Zdigits2 (Zpos p) <= 64).
  { rewrite Zdigits2_log2 by lia.
    pose proof (Z.log2_nonneg (Zpos p)).
    assert (Z.log2 (Zpos p) < 64) by (apply Z.log2_lt_pow2; lia). lia. }
  change (Zpos (digits2_pos p)) with (Zdigits2 (Zpos p)).
  unfold shl_align. rewrite fexp_binary64.
  destruct (Z.max (Zdigits2 (Zpos p) + 0 - 53) (-1074) - 0) as [|d|d] eqn:Ed.
  - apply binary_round_aux_finite; lia.
  - apply binary_round_aux_finite; lia.
  - apply binary_round_aux_finite; [lia | lia |].
    rewrite Zdigits2_shift_left. lia.
Qed.

(** *** Signs through the operators *)

Lemma SFdiv_core_binary_nonneg (m1 m2 : positive) (e1 e2 : Z) :
  0 <= fst (fst (SFdiv_core_binary prec emax (Zpos m1) e1 (Zpos m2) e2)).
Proof.
  unfold SFdiv_core_binary.
  set (shift := _ - _ - Z.min _ _).
  set (m' := match shift with
             | 0 => Zpos m1
             | Zpos _ => Z.shiftl (Zpos m1) shift
             | Zneg _ => 0
             end).
  assert (Hm' : 0 <= m').
  { subst m'. destruct shift; try lia. apply Z.shiftl_nonneg. lia. }
  pose proof (Z_div_mod m' (Zpos m2) ltac:(lia)) as Hdiv.
  destruct (Z.div_eucl m' (Zpos m2)) as [q r]. cbn [fst]. nia.
Qed.

Lemma SFdiv_finite_sign (s sden : bool) (m mden : positive) (e eden : Z) :
  has_sign (xorb s sden)
    (SFdiv prec emax (S754_finite s m e) (S754_finite sden mden eden)).
Proof.
  cbn [SFdiv].
  pose proof (SFdiv_core_binary_nonneg m mden e eden) as Hq.
  destruct (SFdiv_core_binary prec emax (Zpos m) e (Zpos mden) eden)
    as [[mz ez] lz].
  cbn [fst] in Hq. apply binary_round_aux_sign, Hq.
Qed.

Lemma SFmul_finite_sign (sq s : bool) (q : double) (m : positive) (e : Z) :
  has_sign sq q ->
  has_sign (xorb sq s) (SFmul prec emax q (S754_finite s m e)).
Proof.
  destruct q as [s' | s' | | s' m' e']; cbn [has_sign SFmul];
    try (intros ->; reflexivity); try contradiction.
  intros <-. apply binary_round_aux_sign. lia.
Qed.

(** One term of the loop of [variance]: [(d / den) * d] carries the sign of
    [den]. *)
Lemma variance_term_sign (s : bool) (d : double) (m : positive) (e : Z) :
  has_sign s d ->
  has_sign false
    (times (divide d (S754_finite false m e)) d).
Proof.
  cbn [times divide binary64].
  destruct d as [s' | s' | | s' m' e']; cbn [has_sign]; try contradiction;
    intros _.
  - destruct s'; reflexivity.
  - destruct s'; reflexivity.
  - pose proof (SFdiv_finite_sign s' false m' m e' e) as Hq.
    apply (SFmul_finite_sign _ s' _ m' e') in Hq.
    destruct s'; exact Hq.
Qed.

Lemma SFadd_positive (x y : double) :
  has_sign false x -> has_sign false y ->
  has_sign false (SFadd prec emax x y).
Proof.
  destruct x as [sx | sx | | sx mx ex], y as [sy | sy | | sy my ey];
    cbn [has_sign]; try contradiction; intros -> ->;
    try reflexivity.
  cbn [SFadd cond_Zopp]. apply binary_normalize_positive. lia.
Qed.

Lemma SFsub_not_nan (x a : double) :
  is_finite x = true -> is_nan a = false ->
  exists s, has_sign s (SFsub prec emax x a).
Proof.
  destruct x as [sx | sx | | sx mx ex], a as [sa | sa | | sa ma ea];
    cbn [is_finite is_nan]; try discriminate; intros _ _;
    try (eexists; reflexivity).
  - destruct sx, sa; eexists; reflexivity.
  - cbn [SFsub]. apply binary_normalize_not_nan.
Qed.

Lemma ge_zero_of_sign (result : double) :
  has_sign false result -> ge_zero result = true.
Proof.
  destruct result as [s | s | | s m e]; cbn [has_sign]; try contradiction;
    intros ->; reflexivity.
Qed.

Lemma variance_loop_sign (mean : double) (m : positive) (e : Z)
  (data : list double) (acc : double) :
  Forall (fun num => is_finite num = true) data ->
  is_nan mean = false ->
  has_sign false acc ->
  has_sign false
    (fold_left
       (fun result num =>
          let d := minus num mean in
          plus result (times (divide d (S754_finite false m e)) d))
       data acc).
Proof.
  intros Hdata Hmean. revert acc.
  induction Hdata as [|num data Hnum Hdata IH]; intros acc Hacc;
    cbn [fold_left]; [exact Hacc|].
  apply IH. cbv zeta.
  destruct (SFsub_not_nan num mean Hnum Hmean) as [s Hd].
  apply SFadd_positive; [exact Hacc|].
  apply (variance_term_sign s). exact Hd.
Qed.

End Binary64_signs.

(** For data that is non-empty, with at least two elements when [general]
    is false, and made of finite numbers, and for an [avg] that is not
    NaN, [variance(data, avg, general)] passes its assertion and returns a
    result that satisfies [result >= 0]. *)
Theorem variance_assertion_passes
  (data : list Statistic.double) (avg : Statistic.double) (general : bool) :
  Forall (fun num => Statistic.is_finite num = true) data ->
  Statistic.is_nan avg = false ->
  1 <= Statistic.size data < 2 ^ 64 ->
  (general = false -> 2 <= Statistic.size data) ->
  exists result : Statistic.double,
    Statistic.variance data avg general = Statistic.Passed result /\
    Statistic.ge_zero result = true /\
    Statistic.has_sign false result.
Proof.
  intros Hdata Havg Hsize Hsample.
  assert (Hden : exists m e,
             Statistic.denominator data general = S754_finite false m e).
  { unfold Statistic.denominator. cbn [Statistic.of_size Statistic.binary64].
    apply double_of_Z_positive.
    assert (Hk : 0 <= (if negb general then 1 else 0)
                 < Statistic.size data).
    { destruct general; cbn [negb]; [lia|].
      specialize (Hsample eq_refl). lia. }
    rewrite size_t_sub_small; lia. }
  destruct Hden as [m [e Hden]].
  assert (Hsign : Statistic.has_sign false
                    (Statistic.variance_sum data avg general)).
  { unfold Statistic.variance_sum. rewrite Hden.
    apply variance_loop_sign; trivial. reflexivity. }
  exists (Statistic.variance_sum data avg general).
  unfold Statistic.variance, Statistic.DMITIGR_ASSERT.
  rewrite (ge_zero_of_sign _ Hsign). repeat split. exact Hsign.
Qed.

(** The sample variance of 2, 4, 4, 4, 5, 5, 7, 9 around 5.0 passes the
    assertion. *)
Lemma variance_assertion_passes_example :
  exists result : Statistic.double,
    Statistic.variance
      (map Statistic.double_of_Z [2; 4; 4; 4; 5; 5; 7; 9])
      (Statistic.double_of_Z 5) false = Statistic.Passed result /\
    Statistic.ge_zero result = true /\
    Statistic.has_sign false result.
Proof.
  apply variance_assertion_passes.
  - repeat constructor.
  - reflexivity.
  - vm_compute. split; [discriminate | reflexivity].
  - intros _. vm_compute. discriminate.
Defined.

(** C8: the code fails its own assertion inside the preconditions on the
    size of the data.  With a NaN among two elements, or an infinite
    element and an [avg] that is the same infinity, the sum is NaN,
    [result >= 0] is false and [DMITIGR_ASSERT(result >= 0)] fails: the
    result is not non-negative for every input the preconditions allow. *)
Lemma variance_of_nan_fails :
  Statistic.variance [S754_nan; Statistic.double_of_Z 1]
    (Statistic.double_of_Z 1) true = Statistic.Assertion_failed /\
  Statistic.variance [S754_infinity false; Statistic.double_of_Z 1]
    (S754_infinity false) false = Statistic.Assertion_failed /\
  ~ (forall (data : list Statistic.double) (avg : Statistic.double)
            (general : bool),
        1 <= Statistic.size data < 2 ^ 64 ->
        (general = false -> 2 <= Statistic.size data) ->
        exists result : Statistic.double,
          Statistic.variance data avg general = Statistic.Passed result /\
          Statistic.ge_zero result = true).
Proof.
  split; [reflexivity|]. split; [reflexivity|].
  intros Hall.
  destruct (Hall [S754_nan; Statistic.double_of_Z 1]
              (Statistic.double_of_Z 1) true)
    as [result [Hpass _]].
  - vm_compute. split; [discriminate | reflexivity].
  - intros _. vm_compute. discriminate.
  - discriminate Hpass.
Qed.

(** *** Runs of the loops that do not round *)

Section Exact_runs.

Import Statistic Reference.

Local Open Scope Q_scope.








End Exact_runs.




(** * Further properties *)

(** ** Alignment: rounding up *)

Section Rounding_up.

Import Alignment Reference.

Variable is_signed : bool.
Variable width : Z.
Hypothesis width_pos : 0 < width.

Local Abbreviation T_max := (T_max is_signed width).
Local Abbreviation padding := (padding is_signed width).
Local Abbreviation aligned := (aligned is_signed width).

Lemma round_up_bounds v al :
  0 < al -> v <= round_up v al < v + al /\ round_up v al mod al = 0.
Proof.
  intros Hal. unfold round_up.
  pose proof (Z.div_mod (v + (al - 1)) al ltac:(lia)) as Hdm.
  pose proof (Z.mod_pos_bound (v + (al - 1)) al Hal) as Hm.
  split; [lia|].
  rewrite Z.mul_comm. apply Z.mod_mul. lia.
Qed.

Lemma round_up_least v al m :
  0 < al -> v <= m -> m mod al = 0 -> round_up v al <= m.
Proof.
  intros Hal Hvm Hm.
  destruct (round_up_bounds v al Hal) as [[_ Hlt] _].
  apply Z.mod_divide in Hm; [|lia]. destruct Hm as [j ->].
  unfold round_up in *.
  set (q := (v + (al - 1)) / al) in *. clearbody q.
  assert (q <= j) by nia. nia.
Qed.

Lemma round_up_multiple v al :
  0 < al -> v mod al = 0 -> round_up v al = v.
Proof.
  intros Hal Hv.
  destruct (round_up_bounds v al Hal) as [[Hle _] _].
  pose proof (round_up_least v al v Hal ltac:(lia) Hv). lia.
Qed.

Lemma aligned_round_up v al :
  0 <= v -> power_of_two al -> al <= T_max -> v + (al - 1) <= T_max ->
  aligned v al = Returned (round_up v al).
Proof using width_pos.
  intros Hv [k [Hk ->]] Hmax Hsum.
  rewrite (aligned_value is_signed width width_pos) by assumption.
  f_equal. unfold round_up.
  pose proof (Z.pow_pos_nonneg 2 k ltac:(lia) Hk).
  pose proof (Z.div_mod (v + (2 ^ k - 1)) (2 ^ k) ltac:(lia)). lia.
Qed.

(** The greatest value plus one is a multiple of every power of two the
    type holds, so rounding up does not bring a value that fits closer to
    the greatest value than [alignment - 1]. *)
Lemma round_up_fits v al :
  0 <= v -> power_of_two al -> al <= T_max -> v + (al - 1) <= T_max ->
  round_up v al + (al - 1) <= T_max.
Proof using width_pos.
  intros Hv [k [Hk ->]] Hmax Hsum.
  pose proof (Z.pow_pos_nonneg 2 k ltac:(lia) Hk) as Hal.
  destruct (round_up_bounds v (2 ^ k) Hal) as [[Hlo Hhi] Hmod].
  assert (Hdiv : exists c, T_max + 1 = 2 ^ k * c).
  { pose proof (pow2_le_T_max is_signed width width_pos k Hk Hmax) as Hkw.
    revert Hmax. unfold Alignment.T_max.
    pose proof (pow2_width width width_pos).
    destruct is_signed; intros Hmax.
    - assert (k < width - 1).
      { apply (Z.pow_lt_mono_r_iff 2); lia. }
      exists (2 ^ (width - 1 - k)). rewrite <- Z.pow_add_r by lia.
      replace (k + (width - 1 - k)) with (width - 1) by lia. lia.
    - exists (2 ^ (width - k)). rewrite <- Z.pow_add_r by lia.
      replace (k + (width - k)) with width by lia. lia. }
  destruct Hdiv as [c Hc].
  unfold round_up in *.
  set (q := (v + (2 ^ k - 1)) / 2 ^ k) in *. clearbody q.
  set (al := 2 ^ k) in *. clearbody al.
  assert (q < c) by nia. nia.
Qed.

(** X1: when [aligned] returns for a power-of-two alignment, the result is
    the least multiple of [alignment] that is not below [value], and it is
    less than [alignment] away from [value]. *)
Theorem aligned_least_multiple value alignment :
  0 <= value -> power_of_two alignment -> alignment <= T_max ->
  value + (alignment - 1) <= T_max ->
  exists a,
    aligned value alignment = Returned a /\
    value <= a < value + alignment /\
    a mod alignment = 0 /\
    forall m, value <= m -> m mod alignment = 0 -> a <= m.
Proof using width_pos.
  intros Hv Hp Hmax Hsum.
  pose proof (power_of_two_pos alignment Hp) as Hal.
  exists (round_up value alignment).
  destruct (round_up_bounds value alignment Hal) as [Hb Hm].
  split; [apply aligned_round_up; assumption|].
  split; [exact Hb|]. split; [exact Hm|].
  intros m. apply round_up_least. exact Hal.
Qed.

(** X2: aligning twice changes nothing: the result of [aligned] is a fixed
    point of [aligned], and its [padding] is zero. *)
Theorem aligned_idempotent value alignment :
  0 <= value -> power_of_two alignment -> alignment <= T_max ->
  value + (alignment - 1) <= T_max ->
  exists a,
    aligned value alignment = Returned a /\
    aligned a alignment = Returned a /\
    padding a alignment = Returned 0.
Proof using width_pos.
  intros Hv Hp Hmax Hsum.
  pose proof (power_of_two_pos alignment Hp) as Hal.
  destruct (round_up_bounds value alignment Hal) as [Hb Hm].
  pose proof (round_up_fits value alignment Hv Hp Hmax Hsum) as Hfit.
  exists (round_up value alignment).
  split; [apply aligned_round_up; assumption|]. split.
  - rewrite aligned_round_up by (trivial; lia).
    f_equal. apply round_up_multiple; assumption.
  - destruct Hp as [k [Hk ->]].
    rewrite (padding_value is_signed width width_pos) by (trivial; lia).
    f_equal. apply Z.mod_opp_l_z; [lia | exact Hm].
Qed.

(** X3: [aligned] returns its argument, and [padding] returns zero,
    exactly for the multiples of [alignment]. *)
Theorem aligned_fixed_points value alignment :
  0 <= value -> power_of_two alignment -> alignment <= T_max ->
  value + (alignment - 1) <= T_max ->
  (aligned value alignment = Returned value <-> value mod alignment = 0) /\
  (padding value alignment = Returned 0 <-> value mod alignment = 0).
Proof using width_pos.
  intros Hv Hp Hmax Hsum.
  pose proof (power_of_two_pos alignment Hp) as Hal.
  destruct (round_up_bounds value alignment Hal) as [Hb Hm].
  split.
  - rewrite aligned_round_up by assumption. split.
    + intros E. injection E as E'. rewrite E' in Hm. exact Hm.
    + intros Hmod. f_equal. apply round_up_multiple; assumption.
  - destruct Hp as [k [Hk ->]].
    rewrite (padding_value is_signed width width_pos) by (trivial; lia).
    split.
    + intros E. injection E as E'.
      replace value with (- - value) by lia.
      apply Z.mod_opp_l_z; [lia | exact E'].
    + intros Hmod. f_equal. apply Z.mod_opp_l_z; [lia | exact Hmod].
Qed.

(** X4: [aligned] is monotone in [value]. *)
Theorem aligned_monotone value1 value2 alignment :
  0 <= value1 <= value2 -> power_of_two alignment -> alignment <= T_max ->
  value2 + (alignment - 1) <= T_max ->
  exists a1 a2,
    aligned value1 alignment = Returned a1 /\
    aligned value2 alignment = Returned a2 /\
    a1 <= a2.
Proof using width_pos.
  intros Hv Hp Hmax Hsum.
  pose proof (power_of_two_pos alignment Hp) as Hal.
  exists (round_up value1 alignment), (round_up value2 alignment).
  rewrite !aligned_round_up by (trivial; lia).
  repeat split.
  destruct (round_up_bounds value2 alignment Hal) as [Hb Hm].
  apply round_up_least; trivial. lia.
Qed.

(** X5: aligning to a power of two and then to a larger one gives what
    aligning to the larger one gives at once. *)
Theorem aligned_coarser value k1 k2 :
  0 <= value -> 0 <= k1 <= k2 -> 2 ^ k2 <= T_max ->
  value + (2 ^ k2 - 1) <= T_max ->
  exists a1 a2,
    aligned value (2 ^ k1) = Returned a1 /\
    aligned a1 (2 ^ k2) = Returned a2 /\
    aligned value (2 ^ k2) = Returned a2.
Proof using width_pos.
  intros Hv Hk Hmax Hsum.
  assert (Hp1 : power_of_two (2 ^ k1)) by (exists k1; split; lia).
  assert (Hp2 : power_of_two (2 ^ k2)) by (exists k2; split; lia).
  pose proof (power_of_two_pos _ Hp1) as Hal1.
  pose proof (power_of_two_pos _ Hp2) as Hal2.
  assert (Hle : 2 ^ k1 <= 2 ^ k2) by (apply Z.pow_le_mono_r; lia).
  destruct (round_up_bounds value (2 ^ k1) Hal1) as [Hb1 Hm1].
  destruct (round_up_bounds value (2 ^ k2) Hal2) as [Hb2 Hm2].
  pose proof (round_up_fits value (2 ^ k2) Hv Hp2 Hmax Hsum) as Hfit.
  assert (Hm21 : round_up value (2 ^ k2) mod 2 ^ k1 = 0).
  { apply Z.mod_divide; [lia|].
    apply Z.divide_trans with (2 ^ k2).
    - exists (2 ^ (k2 - k1)). rewrite <- Z.pow_add_r by lia.
      f_equal. lia.
    - apply Z.mod_divide; [lia | exact Hm2]. }
  assert (H12 : round_up value (2 ^ k1) <= round_up value (2 ^ k2)).
  { apply round_up_least; trivial. lia. }
  exists (round_up value (2 ^ k1)), (round_up value (2 ^ k2)).
  rewrite !aligned_round_up by (trivial; lia).
  repeat split. f_equal.
  destruct (round_up_bounds (round_up value (2 ^ k1)) (2 ^ k2) Hal2)
    as [Hb3 Hm3].
  pose proof (round_up_least (round_up value (2 ^ k1)) (2 ^ k2)
                (round_up value (2 ^ k2)) Hal2 H12 Hm2).
  pose proof (round_up_least value (2 ^ k2)
                (round_up (round_up value (2 ^ k1)) (2 ^ k2))
                Hal2 ltac:(lia) Hm3).
  lia.
Qed.

(** X6: [padding] needs no room above [value]: for every non-negative
    [value] the type holds, it returns the least non-negative number that
    added to [value] gives a multiple of [alignment]. *)
Theorem padding_least value alignment :
  0 <= value <= T_max -> power_of_two alignment -> alignment <= T_max ->
  exists p,
    padding value alignment = Returned p /\
    0 <= p < alignment /\
    (value + p) mod alignment = 0 /\
    forall p', 0 <= p' -> (value + p') mod alignment = 0 -> p <= p'.
Proof using width_pos.
  intros Hv [k [Hk ->]] Hmax.
  pose proof (Z.pow_pos_nonneg 2 k ltac:(lia) Hk) as Hal.
  exists ((- value) mod 2 ^ k).
  pose proof (Z.mod_pos_bound (- value) (2 ^ k) Hal) as Hb.
  pose proof (Z.div_mod (- value) (2 ^ k) ltac:(lia)) as Hdm.
  split; [apply (padding_value is_signed width width_pos); assumption|].
  split; [exact Hb|].
  assert (Hsum : value + (- value) mod 2 ^ k = - (- value / 2 ^ k) * 2 ^ k)
    by lia.
  split.
  - rewrite Hsum. apply Z.mod_mul. lia.
  - intros p' Hp' Hmod.
    apply Z.mod_divide in Hmod; [|lia]. destruct Hmod as [j Hj].
    set (q := - value / 2 ^ k) in *. clearbody q.
    set (r := (- value) mod 2 ^ k) in *. clearbody r.
    set (al := 2 ^ k) in *. clearbody al.
    destruct (Z_lt_le_dec p' r) as [Hlt|]; [exfalso | assumption].
    assert (Hd : r - p' = (- q - j) * al) by lia.
    assert (0 < - q - j) by nia.
    nia.
Qed.

(** X8: an alignment of zero passes the test on both functions:
    [aligned] returns 0 whatever the value, and [padding] returns the
    negated value, which is negative in a signed type and wraps in an
    unsigned one. *)
Theorem alignment_zero value :
  0 <= value <= T_max ->
  aligned value 0 = Returned 0 /\
  padding value 0 =
    Returned (if is_signed then - value else (- value) mod 2 ^ width).
Proof using width_pos.
  intros Hv. unfold Alignment.aligned, Alignment.padding.
  replace (0 <=? value) with true by (symmetry; apply Z.leb_le; lia).
  rewrite is_power_of_two_0. cbn [negb]. split.
  - f_equal. unfold Alignment.neg. cbn [Z.opp].
    rewrite (wrap_representable is_signed width width_pos 0)
      by (apply T_bounds; exact width_pos).
    apply Z.land_0_r.
  - f_equal. unfold Alignment.static_cast.
    rewrite (wrap_representable is_signed width width_pos 0)
      by (apply T_bounds; exact width_pos).
    pose proof (pow2_width width width_pos) as Hw.
    pose proof (half_pos width width_pos) as Hh.
    revert Hv. unfold Alignment.sub, Alignment.wrap, Alignment.T_max.
    destruct is_signed; cbv iota; intros Hv.
    + replace (0 - 1 + 2 ^ (width - 1)) with (2 ^ (width - 1) - 1) by lia.
      rewrite (Z.mod_small (2 ^ (width - 1) - 1)) by lia.
      replace (2 ^ (width - 1) - 1 - 2 ^ (width - 1)) with (-1) by lia.
      rewrite (Z.mod_small (-1 + 2 ^ (width - 1))) by lia.
      replace (-1 + 2 ^ (width - 1) - 2 ^ (width - 1)) with (-1) by lia.
      rewrite Z.land_m1_r.
      rewrite Z.mod_small by lia. lia.
    + replace ((0 - 1) mod 2 ^ width) with (2 ^ width - 1)
        by (apply (Z.mod_unique _ _ (-1)); lia).
      rewrite (Z.mod_small (2 ^ width - 1)) by lia.
      rewrite Z.sub_1_r, <- Z.ones_equiv, Z.land_ones by lia.
      rewrite Z.mod_mod by lia. reflexivity.
Qed.

End Rounding_up.

(** X7: in an unsigned type, when [value + (alignment - 1)] does not fit,
    the sum wraps and [aligned] returns 0, which is below [value]. *)
Theorem aligned_unsigned_wraps width value alignment :
  0 < width ->
  0 <= value <= Alignment.T_max false width ->
  Alignment.power_of_two alignment ->
  alignment <= Alignment.T_max false width ->
  Alignment.T_max false width < value + (alignment - 1) ->
  Alignment.aligned false width value alignment = Returned 0.
Proof.
  intros Hw Hv [k [Hk ->]] Hmax Hover.
  pose proof (Z.pow_pos_nonneg 2 k ltac:(lia) Hk) as Hal.
  unfold Alignment.aligned.
  replace (0 <=? value) with true by (symmetry; apply Z.leb_le; lia).
  rewrite is_power_of_two_pow2 by assumption. cbn [negb]. f_equal.
  pose proof (T_bounds false width Hw) as HT.
  rewrite sub_1_no_wrap by (trivial; lia).
  assert (Hwrap : Alignment.add false width value (2 ^ k - 1) =
                  value + (2 ^ k - 1) - 2 ^ width).
  { unfold Alignment.add, Alignment.wrap.
    unfold Alignment.T_max in Hv, Hmax, Hover.
    symmetry. apply (Z.mod_unique _ _ 1); lia. }
  rewrite Hwrap.
  unfold Alignment.T_max in Hv, Hmax, Hover.
  rewrite land_neg_alignment
    by (trivial; unfold Alignment.T_max; lia).
  rewrite Z.mod_small by lia. lia.
Qed.

(** Rounding 10 up to a multiple of 8 on [int]. *)
Lemma aligned_least_multiple_int :
  exists a,
    Alignment.aligned true 32 10 8 = Returned a /\
    10 <= a < 10 + 8 /\ a mod 8 = 0 /\
    forall m, 10 <= m -> m mod 8 = 0 -> a <= m.
Proof.
  apply (aligned_least_multiple true 32);
    [lia | lia | exists 3; split; [lia | reflexivity]
    | vm_compute; discriminate | vm_compute; discriminate].
Defined.

(** Aligning 10 twice to 8 on [int]. *)
Lemma aligned_idempotent_int :
  exists a,
    Alignment.aligned true 32 10 8 = Returned a /\
    Alignment.aligned true 32 a 8 = Returned a /\
    Alignment.padding true 32 a 8 = Returned 0.
Proof.
  apply (aligned_idempotent true 32);
    [lia | lia | exists 3; split; [lia | reflexivity]
    | vm_compute; discriminate | vm_compute; discriminate].
Defined.

(** 24 is a multiple of 8: both tests on [int]. *)
Lemma aligned_fixed_points_int :
  (Alignment.aligned true 32 24 8 = Returned 24 <-> 24 mod 8 = 0) /\
  (Alignment.padding true 32 24 8 = Returned 0 <-> 24 mod 8 = 0).
Proof.
  apply (aligned_fixed_points true 32);
    [lia | lia | exists 3; split; [lia | reflexivity]
    | vm_compute; discriminate | vm_compute; discriminate].
Defined.

(** 10 and 17 aligned to 8 on [int]. *)
Lemma aligned_monotone_int :
  exists a1 a2,
    Alignment.aligned true 32 10 8 = Returned a1 /\
    Alignment.aligned true 32 17 8 = Returned a2 /\
    a1 <= a2.
Proof.
  apply (aligned_monotone true 32);
    [lia | lia | exists 3; split; [lia | reflexivity]
    | vm_compute; discriminate | vm_compute; discriminate].
Defined.

(** 10 aligned to 4 and then to 16, on a 64-bit unsigned type. *)
Lemma aligned_coarser_unsigned :
  exists a1 a2,
    Alignment.aligned false 64 10 (2 ^ 2) = Returned a1 /\
    Alignment.aligned false 64 a1 (2 ^ 4) = Returned a2 /\
    Alignment.aligned false 64 10 (2 ^ 4) = Returned a2.
Proof.
  apply (aligned_coarser false 64);
    [lia | lia | lia | vm_compute; discriminate | vm_compute; discriminate].
Defined.

(** The padding of the greatest [int] to 8. *)
Lemma padding_least_int :
  exists p,
    Alignment.padding true 32 2147483647 8 = Returned p /\
    0 <= p < 8 /\
    (2147483647 + p) mod 8 = 0 /\
    forall p', 0 <= p' -> (2147483647 + p') mod 8 = 0 -> p <= p'.
Proof.
  apply (padding_least true 32);
    [lia | vm_compute; split; discriminate
    | exists 3; split; [lia | reflexivity] | vm_compute; discriminate].
Defined.

(** 250 aligned to 8 in an 8-bit unsigned type. *)
Lemma aligned_unsigned_wraps_byte :
  Alignment.aligned false 8 250 8 = Returned 0.
Proof.
  apply aligned_unsigned_wraps;
    [lia | vm_compute; split; discriminate
    | exists 3; split; [lia | reflexivity]
    | vm_compute; discriminate | vm_compute; reflexivity].
Defined.

(** An alignment of zero on [int] and on a 64-bit unsigned type. *)
Lemma alignment_zero_int :
  (Alignment.aligned true 32 5 0 = Returned 0 /\
   Alignment.padding true 32 5 0 = Returned (- 5)) /\
  (Alignment.aligned false 64 5 0 = Returned 0 /\
   Alignment.padding false 64 5 0 = Returned ((- 5) mod 2 ^ 64)).
Proof.
  split.
  - apply (alignment_zero true 32); [lia | vm_compute; split; discriminate].
  - apply (alignment_zero false 64); [lia | vm_compute; split; discriminate].
Defined.

(** ** Interval: membership over a total order *)

Section Ordered_intervals.

Import Intervals Reference.

Context {T : Type} {value_type : Value_type T}.
Hypothesis order : total_order T.

Lemma le_reflexive (a : T) : le a a = true.
Proof using order. destruct (le_total T order a a); assumption. Qed.

Lemma lt_false_iff (a b : T) : lt a b = false <-> le b a = true.
Proof using order.
  rewrite (lt_is_not_ge T order). destruct (le b a); simpl; split; congruence.
Qed.

Lemma lt_true_iff (a b : T) : lt a b = true <-> le b a = false.
Proof using order.
  rewrite (lt_is_not_ge T order). destruct (le b a); simpl; split; congruence.
Qed.

Lemma lt_le_weak (a b : T) : lt a b = true -> le a b = true.
Proof using order.
  rewrite lt_true_iff. intros Hba.
  destruct (le_total T order a b); congruence.
Qed.

Lemma lt_irreflexive (a : T) : lt a a = false.
Proof using order. apply lt_false_iff, le_reflexive. Qed.

Lemma le_lt_transitive (a b c : T) :
  le a b = true -> lt b c = true -> lt a c = true.
Proof using order.
  rewrite !lt_true_iff. intros Hab Hcb.
  destruct (le c a) eqn:Hca; [|reflexivity].
  rewrite (le_transitive T order c a b Hca Hab) in Hcb. discriminate.
Qed.

Lemma lt_le_transitive (a b c : T) :
  lt a b = true -> le b c = true -> lt a c = true.
Proof using order.
  rewrite !lt_true_iff. intros Hba Hbc.
  destruct (le c a) eqn:Hca; [|reflexivity].
  rewrite (le_transitive T order b c a Hbc Hca) in Hba. discriminate.
Qed.

Lemma lt_transitive (a b c : T) :
  lt a b = true -> lt b c = true -> lt a c = true.
Proof using order.
  intros Hab Hbc. apply (le_lt_transitive a b c); [|exact Hbc].
  apply lt_le_weak, Hab.
Qed.

(** X9: an interval is convex: a value between two members is a member. *)
Theorem has_convex (this : Interval T) (a b c : T) :
  has this a = true -> has this b = true ->
  le a c = true -> le c b = true ->
  has this c = true.
Proof using order.
  unfold has. intros Ha Hb Hac Hcb.
  destruct (type_ this);
    apply andb_true_iff in Ha; destruct Ha as [Ha1 Ha2];
    apply andb_true_iff in Hb; destruct Hb as [Hb1 Hb2];
    apply andb_true_iff; split;
    eauto using le_transitive, le_lt_transitive, lt_le_transitive.
  all: first [ apply (le_transitive T order _ a); assumption
             | apply (le_transitive T order _ b); assumption
             | apply (lt_le_transitive _ a); assumption
             | apply (le_lt_transitive _ b); assumption ].
Qed.

(** X10: a member lies between the bounds, so an instance whose bounds
    are not in order has no member; and for the same bounds the open
    interval is inside the two half-open ones, which are inside the
    closed one. *)
Theorem has_within_bounds (min max value : T) :
  (forall type : Interval_type,
      has (Build_Interval type min max) value = true ->
      le min value = true /\ le value max = true /\ le min max = true) /\
  (has (Build_Interval open min max) value = true ->
   has (Build_Interval lopen min max) value = true /\
   has (Build_Interval ropen min max) value = true) /\
  (has (Build_Interval lopen min max) value = true ->
   has (Build_Interval closed min max) value = true) /\
  (has (Build_Interval ropen min max) value = true ->
   has (Build_Interval closed min max) value = true).
Proof using order.
  unfold has. cbn [type_ min_ max_].
  split; [|split; [|split]].
  - intros type Hhas.
    assert (Hb : le min value = true /\ le value max = true).
    { destruct type; apply andb_true_iff in Hhas; destruct Hhas;
        split; auto using lt_le_weak. }
    destruct Hb as [H1 H2]. repeat split; trivial.
    apply (le_transitive T order min value max); assumption.
  - intros Hhas. apply andb_true_iff in Hhas. destruct Hhas as [H1 H2].
    rewrite H1, H2, (lt_le_weak _ _ H1), (lt_le_weak _ _ H2). split; reflexivity.
  - intros Hhas. apply andb_true_iff in Hhas. destruct Hhas as [H1 H2].
    rewrite H2, (lt_le_weak _ _ H1). reflexivity.
  - intros Hhas. apply andb_true_iff in Hhas. destruct Hhas as [H1 H2].
    rewrite H1, (lt_le_weak _ _ H2). reflexivity.
Qed.

(** X11: which of its own bounds a constructed interval contains: the
    lower bound when it is closed or right-open, the upper bound when it is
    closed or left-open. *)
Theorem has_endpoints (type : Interval_type) (min max : T)
  (this : Interval T) :
  Interval_typed type min max = Returned this ->
  has this min =
    match type with closed | ropen => true | open | lopen => false end /\
  has this max =
    match type with closed | lopen => true | open | ropen => false end.
Proof using order.
  intros Hctor.
  pose proof (Interval_typed_throws type min max) as Hthrows.
  rewrite Hctor in Hthrows. cbn [throws] in Hthrows.
  apply Interval_typed_returned in Hctor. subst this.
  unfold has. cbn [type_ min_ max_].
  rewrite !le_reflexive, !lt_irreflexive.
  destruct type; symmetry in Hthrows; apply negb_false_iff in Hthrows;
    rewrite ?Hthrows, ?(lt_le_weak _ _ Hthrows); split; reflexivity.
Qed.

(** X12: adjacent half-open intervals join: when the typed constructor
    builds [[a, b)] and [[b, c)] it builds [[a, c)], and a value is in
    [[a, c)] exactly when it is in [[a, b)] or in [[b, c)], never in both;
    likewise for [(a, b]], [(b, c]] and [(a, c]]. *)
Theorem half_open_concatenation (a b c : T) :
  (forall left right : Interval T,
      Interval_typed ropen a b = Returned left ->
      Interval_typed ropen b c = Returned right ->
      exists whole : Interval T,
        Interval_typed ropen a c = Returned whole /\
        forall value : T,
          has whole value = has left value || has right value /\
          has left value && has right value = false) /\
  (forall left right : Interval T,
      Interval_typed lopen a b = Returned left ->
      Interval_typed lopen b c = Returned right ->
      exists whole : Interval T,
        Interval_typed lopen a c = Returned whole /\
        forall value : T,
          has whole value = has left value || has right value /\
          has left value && has right value = false).
Proof using order.
  split; intros left right Hleft Hright.
  all: match type of Hleft with
       | Interval_typed ?type _ _ = _ =>
           pose proof (Interval_typed_throws type a b) as Hab;
           pose proof (Interval_typed_throws type b c) as Hbc
       end;
    rewrite Hleft in Hab; cbn [throws] in Hab;
    symmetry in Hab; apply negb_false_iff in Hab;
    rewrite Hright in Hbc; cbn [throws] in Hbc;
    symmetry in Hbc; apply negb_false_iff in Hbc;
    apply Interval_typed_returned in Hleft, Hright; subst left right;
    pose proof (lt_transitive a b c Hab Hbc) as Hac.
  - exists (Build_Interval ropen a c). split.
    + unfold Interval_typed. cbn [type_ min_ max_ Interval_type_eqb].
      rewrite Hac. reflexivity.
    + intros value. unfold has. cbn [type_ min_ max_].
      destruct (le b value) eqn:Hbv.
      * apply lt_false_iff in Hbv as Hvb. rewrite Hvb.
        rewrite (le_transitive T order a b value (lt_le_weak _ _ Hab) Hbv).
        rewrite andb_false_r. split; reflexivity.
      * apply lt_true_iff in Hbv as Hvb. rewrite Hvb.
        rewrite (lt_transitive value b c Hvb Hbc).
        rewrite !andb_true_r, orb_false_r, andb_false_r. split; reflexivity.
  - exists (Build_Interval lopen a c). split.
    + unfold Interval_typed. cbn [type_ min_ max_ Interval_type_eqb].
      rewrite Hac. reflexivity.
    + intros value. unfold has. cbn [type_ min_ max_].
      destruct (le value b) eqn:Hvb.
      * apply lt_false_iff in Hvb as Hbv. rewrite Hbv.
        rewrite (le_transitive T order value b c Hvb (lt_le_weak _ _ Hbc)).
        rewrite !andb_true_r, orb_false_r, andb_false_r. split; reflexivity.
      * apply lt_true_iff in Hvb as Hbv. rewrite Hbv.
        rewrite (lt_transitive a b value Hab Hbv).
        rewrite andb_false_r. split; reflexivity.
Qed.

(** X13: the closed interval with equal bounds is always built, by the
    two-argument constructor and by the typed one, and contains its bound
    and nothing else. *)
Theorem degenerate_closed (a : T) :
  Interval_bounds a a = Returned (Build_Interval closed a a) /\
  Interval_typed closed a a = Returned (Build_Interval closed a a) /\
  forall value : T,
    has (Build_Interval closed a a) value = true <-> value = a.
Proof using order.
  unfold Interval_bounds, Interval_typed.
  cbn [type_ min_ max_ Interval_type_eqb]. rewrite le_reflexive.
  split; [reflexivity|]. split; [reflexivity|].
  intros value. unfold has. cbn [type_ min_ max_].
  rewrite andb_true_iff. split.
  - intros [H1 H2]. apply (le_antisymmetric T order); assumption.
  - intros ->. split; apply le_reflexive.
Qed.

(** X14: after [release] the instance contains the default value [T{}]
    and nothing else, whatever it held before. *)
Theorem released_members (this : Interval T) (value : T) :
  has (snd (release this)) value = true <-> value = value_init.
Proof using order.
  unfold release, Interval_default, has. cbn [snd type_ min_ max_].
  rewrite andb_true_iff. split.
  - intros [H1 H2]. apply (le_antisymmetric T order); assumption.
  - intros ->. split; apply le_reflexive.
Qed.

(** X15: the ordering of the bounds is an invariant of the class: it
    holds of the default-constructed interval, of every interval a
    constructor returns, and of the instance after [release]. *)
Theorem ordered_bounds_invariant :
  ordered_bounds (@Interval_default T value_type) = true /\
  (forall (min max : T) (this : Interval T),
      Interval_bounds min max = Returned this ->
      ordered_bounds this = true) /\
  (forall (type : Interval_type) (min max : T) (this : Interval T),
      Interval_typed type min max = Returned this ->
      ordered_bounds this = true) /\
  (forall this : Interval T,
      ordered_bounds (snd (release this)) = true).
Proof using order.
  assert (Htyped : forall type min max this,
             Interval_typed type min max = Returned this ->
             ordered_bounds this = true).
  { intros type min max this Hctor.
    pose proof (Interval_typed_throws type min max) as Hthrows.
    rewrite Hctor in Hthrows. cbn [throws] in Hthrows.
    apply Interval_typed_returned in Hctor. subst this.
    unfold ordered_bounds. cbn [type_ min_ max_].
    destruct type; symmetry in Hthrows; apply negb_false_iff in Hthrows;
      exact Hthrows. }
  assert (Hdefault : ordered_bounds (@Interval_default T value_type) = true)
    by apply le_reflexive.
  split; [exact Hdefault|]. split; [|split; [exact Htyped|]].
  - intros min max this. unfold Interval_bounds. cbn [type_ min_ max_].
    destruct (le min max) eqn:Hle; cbn [negb]; intros E; inversion E.
    exact Hle.
  - intros this. exact Hdefault.
Qed.

End Ordered_intervals.

(** X16: the two-argument constructor and the typed constructor called
    with [Type::closed] build the same interval and throw on the same
    bounds; only the messages differ. *)
Theorem Interval_bounds_as_typed_closed
  (T : Type) (value_type : Intervals.Value_type T) (min max : T) :
  returned (Intervals.Interval_bounds min max) =
    returned (Intervals.Interval_typed Intervals.closed min max) /\
  throws (Intervals.Interval_bounds min max) =
    throws (Intervals.Interval_typed Intervals.closed min max) /\
  (throws (Intervals.Interval_bounds min max) = true ->
   Intervals.Interval_bounds min max <>
   Intervals.Interval_typed Intervals.closed min max).
Proof.
  unfold Intervals.Interval_bounds, Intervals.Interval_typed.
  cbn [Intervals.type_ Intervals.min_ Intervals.max_
       Intervals.Interval_type_eqb andb orb negb].
  rewrite orb_false_r.
  destruct (Intervals.le min max); cbn [negb throws returned];
    repeat split; discriminate.
Qed.

Lemma Z_total_order : Reference.total_order Z.
Proof.
  split; cbn [Intervals.le Intervals.lt Intervals.Z_value_type].
  - intros a b. apply Z.ltb_antisym.
  - intros a b. rewrite !Z.leb_le. lia.
  - intros a b c. rewrite !Z.leb_le. lia.
  - intros a b. rewrite !Z.leb_le. lia.
Qed.

(** 3 lies between the members 1 and 5 of [[1, 5]]. *)
Lemma has_convex_Z :
  Intervals.has (Intervals.Build_Interval Intervals.closed 1 5) 3 = true.
Proof.
  apply (has_convex Z_total_order _ 1 5 3); reflexivity.
Defined.

(** 3 is in [(1, 5)], hence between 1 and 5. *)
Lemma has_within_bounds_Z :
  Intervals.le 1 3 = true /\ Intervals.le 3 5 = true /\
  Intervals.le 1 5 = true.
Proof.
  apply (proj1 (has_within_bounds Z_total_order 1 5 3) Intervals.open).
  reflexivity.
Defined.

(** The bounds of [(1, 5]]. *)
Lemma has_endpoints_Z :
  Intervals.has (Intervals.Build_Interval Intervals.lopen 1 5) 1 = false /\
  Intervals.has (Intervals.Build_Interval Intervals.lopen 1 5) 5 = true.
Proof.
  apply (has_endpoints Z_total_order Intervals.lopen 1 5). reflexivity.
Defined.

(** [[1, 3)] and [[3, 5)] join to [[1, 5)]. *)
Lemma half_open_concatenation_Z :
  exists whole : Intervals.Interval Z,
    Intervals.Interval_typed Intervals.ropen 1 5 = Returned whole /\
    forall value : Z,
      Intervals.has whole value =
        Intervals.has (Intervals.Build_Interval Intervals.ropen 1 3) value
        || Intervals.has (Intervals.Build_Interval Intervals.ropen 3 5) value
      /\ Intervals.has (Intervals.Build_Interval Intervals.ropen 1 3) value
         && Intervals.has (Intervals.Build_Interval Intervals.ropen 3 5) value
         = false.
Proof.
  apply (proj1 (half_open_concatenation Z_total_order 1 3 5)); reflexivity.
Defined.

(** The interval [[7, 7]] over the integers. *)
Lemma degenerate_closed_Z :
  Intervals.Interval_typed Intervals.closed 7 7 =
    Returned (Intervals.Build_Interval Intervals.closed 7 7) /\
  (Intervals.has (Intervals.Build_Interval Intervals.closed 7 7) 7 = true <->
   7 = 7).
Proof.
  destruct (degenerate_closed Z_total_order 7) as [_ [Hmake Hhas]].
  split; [exact Hmake | exact (Hhas 7)].
Defined.

(** After [release], [(2, 9)] over the integers contains 0 and not 5. *)
Lemma released_members_Z :
  (Intervals.has
     (snd (Intervals.release (Intervals.Build_Interval Intervals.open 2 9)))
     0 = true <-> 0 = 0) /\
  (Intervals.has
     (snd (Intervals.release (Intervals.Build_Interval Intervals.open 2 9)))
     5 = true <-> 5 = 0).
Proof.
  split; apply (released_members Z_total_order).
Defined.

(** The invariant of [(2, 9)] over the integers. *)
Lemma ordered_bounds_invariant_Z :
  Reference.ordered_bounds (Intervals.Build_Interval Intervals.open 2 9) =
    true.
Proof.
  apply (proj1 (proj2 (proj2 (ordered_bounds_invariant Z_total_order)))
           Intervals.open 2 9).
  reflexivity.
Defined.

(** ** Statistic: NaN, signs and constant data in binary64 *)

Section Binary64_propagation.

Import Statistic.

Lemma not_nan_has_sign (x : double) :
  is_nan x = false -> exists s, has_sign s x.
Proof.
  destruct x as [s | s | | s m e]; cbn [is_nan]; try discriminate;
    intros _; exists s; reflexivity.
Qed.

Lemma has_sign_not_nan (s : bool) (x : double) :
  has_sign s x -> is_nan x = false.
Proof. destruct x; cbn [has_sign is_nan]; trivial. contradiction. Qed.

Lemma SFadd_nan_l (y : double) : SFadd prec emax S754_nan y = S754_nan.
Proof. reflexivity. Qed.

Lemma SFadd_nan_r (x : double) : SFadd prec emax x S754_nan = S754_nan.
Proof. destruct x; reflexivity. Qed.

Lemma is_nan_true (x : double) : is_nan x = true -> x = S754_nan.
Proof. destruct x; cbn [is_nan]; trivial; discriminate. Qed.

(** Once [result] is NaN it stays NaN, whatever is added. *)
Lemma fold_nan_absorbs (term : double -> double) (data : list double) :
  fold_left (fun result num => plus result (term num)) data S754_nan =
  S754_nan.
Proof. induction data as [|num data IH]; cbn [fold_left]; trivial. Qed.

Lemma fold_nan_term (term : double -> double) (data : list double)
  (acc : double) :
  Exists (fun num => term num = S754_nan) data ->
  fold_left (fun result num => plus result (term num)) data acc = S754_nan.
Proof.
  intros Hex. revert acc.
  induction Hex as [num data Hnum | num data Hex IH]; intros acc;
    cbn [fold_left].
  - rewrite Hnum. cbn [plus binary64]. rewrite SFadd_nan_r.
    apply fold_nan_absorbs.
  - apply IH.
Qed.

Lemma variance_term_nan (d den : double) :
  is_nan d = true -> times (divide d den) d = S754_nan.
Proof. intros Hd. apply is_nan_true in Hd. subst d. reflexivity. Qed.

Lemma variance_loop_sign_general (mean : double) (m : positive) (e : Z)
  (data : list double) (acc : double) :
  Forall (fun num => is_nan (minus num mean) = false) data ->
  has_sign false acc ->
  has_sign false
    (fold_left
       (fun result num =>
          let d := minus num mean in
          plus result (times (divide d (S754_finite false m e)) d))
       data acc).
Proof.
  intros Hdata. revert acc.
  induction Hdata as [|num data Hnum Hdata IH]; intros acc Hacc;
    cbn [fold_left]; [exact Hacc|].
  apply IH. cbv zeta.
  destruct (not_nan_has_sign _ Hnum) as [s Hd].
  apply SFadd_positive; [exact Hacc|].
  apply (variance_term_sign s). exact Hd.
Qed.

Lemma SFsub_diag_finite (x : double) :
  is_finite x = true -> SFsub prec emax x x = S754_zero false.
Proof.
  destruct x as [s | s | | s m e]; cbn [is_finite]; try discriminate;
    intros _.
  - destruct s; reflexivity.
  - cbn [SFsub]. rewrite Z.sub_diag. reflexivity.
Qed.

Lemma SFdiv_sign_positive_den (x : double) (m : positive) (e : Z) :
  has_sign false x ->
  has_sign false (SFdiv prec emax x (S754_finite false m e)).
Proof.
  destruct x as [s | s | | s mx ex]; cbn [has_sign]; try contradiction;
    intros ->; try reflexivity.
  apply (SFdiv_finite_sign false false).
Qed.

End Binary64_propagation.

(** X17: under the preconditions on the size of the data, the assertion
    of [variance] fails exactly when some difference [num - avg] is NaN;
    otherwise the result is returned, is not NaN and has a clear sign
    bit. *)
Theorem variance_fails_iff_nan
  (data : list Statistic.double) (avg : Statistic.double) (general : bool) :
  1 <= Statistic.size data < 2 ^ 64 ->
  (general = false -> 2 <= Statistic.size data) ->
  (Statistic.variance data avg general = Statistic.Assertion_failed <->
   Exists (fun num => Statistic.is_nan (Statistic.minus num avg) = true)
          data) /\
  (Statistic.variance data avg general <> Statistic.Assertion_failed ->
   exists result : Statistic.double,
     Statistic.variance data avg general = Statistic.Passed result /\
     Statistic.has_sign false result).
Proof.
  intros Hsize Hsample.
  assert (Hfail :
            Exists (fun num =>
                      Statistic.is_nan (Statistic.minus num avg) = true) data ->
            Statistic.variance data avg general = Statistic.Assertion_failed).
  { intros Hex. unfold Statistic.variance, Statistic.variance_sum.
    rewrite (fold_nan_term
               (fun num =>
                  Statistic.times
                    (Statistic.divide (Statistic.minus num avg)
                       (Statistic.denominator data general))
                    (Statistic.minus num avg))).
    - reflexivity.
    - apply Exists_exists. apply Exists_exists in Hex.
      destruct Hex as [num [Hin Hnan]]. exists num. split; [exact Hin|].
      apply variance_term_nan, Hnan. }
  assert (Hpass :
            Forall (fun num =>
                      Statistic.is_nan (Statistic.minus num avg) = false)
                   data ->
            exists result : Statistic.double,
              Statistic.variance data avg general = Statistic.Passed result /\
              Statistic.has_sign false result).
  { intros Hall.
    assert (Hden : exists m e,
               Statistic.denominator data general = S754_finite false m e).
    { unfold Statistic.denominator.
      cbn [Statistic.of_size Statistic.binary64].
      apply double_of_Z_positive.
      assert (Hk : 0 <= (if negb general then 1 else 0)
                   < Statistic.size data).
      { destruct general; cbn [negb]; [lia|].
        specialize (Hsample eq_refl). lia. }
      rewrite size_t_sub_small; lia. }
    destruct Hden as [m [e Hden]].
    assert (Hsign : Statistic.has_sign false
                      (Statistic.variance_sum data avg general)).
    { unfold Statistic.variance_sum. rewrite Hden.
      apply variance_loop_sign_general; trivial. reflexivity. }
    exists (Statistic.variance_sum data avg general).
    unfold Statistic.variance, Statistic.DMITIGR_ASSERT.
    rewrite (ge_zero_of_sign _ Hsign). split; [reflexivity | exact Hsign]. }
  assert (Hdec : Exists (fun num =>
                           Statistic.is_nan (Statistic.minus num avg) = true)
                        data \/
                 Forall (fun num =>
                           Statistic.is_nan (Statistic.minus num avg) = false)
                        data).
  { clear. induction data as [|num data IH].
    - right. constructor.
    - destruct (Statistic.is_nan (Statistic.minus num avg)) eqn:Hn.
      + left. constructor. exact Hn.
      + destruct IH as [IH | IH].
        * left. apply Exists_cons_tl, IH.
        * right. constructor; assumption. }
  split.
  - split; [|exact Hfail].
    intros Hf. destruct Hdec as [Hex | Hall]; [exact Hex|].
    destruct (Hpass Hall) as [result [Hp _]]. congruence.
  - intros Hnf. destruct Hdec as [Hex | Hall]; [|exact (Hpass Hall)].
    contradiction (Hnf (Hfail Hex)).
Qed.

(** X18: a NaN among the data makes [avg] return NaN and makes the
    overload of [variance] fail its assertion, whatever [general] is. *)
Theorem nan_element_propagates
  (data : list Statistic.double) (general : bool) :
  Exists (fun num => Statistic.is_nan num = true) data ->
  Statistic.avg data = S754_nan /\
  Statistic.variance_of data general = Statistic.Assertion_failed.
Proof.
  intros Hex.
  assert (Havg : Statistic.avg data = S754_nan).
  { unfold Statistic.avg.
    apply (fold_nan_term
             (fun num =>
                Statistic.divide num
                  (Statistic.of_size (Statistic.size data)))).
    apply Exists_exists. apply Exists_exists in Hex.
    destruct Hex as [num [Hin Hnan]]. exists num. split; [exact Hin|].
    apply is_nan_true in Hnan. subst num. reflexivity. }
  split; [exact Havg|].
  unfold Statistic.variance_of, Statistic.variance, Statistic.variance_sum.
  rewrite Havg.
  rewrite (fold_nan_term
             (fun num =>
                Statistic.times
                  (Statistic.divide (Statistic.minus num S754_nan)
                     (Statistic.denominator data general))
                  (Statistic.minus num S754_nan))).
  - reflexivity.
  - apply Exists_exists. apply Exists_exists in Hex.
    destruct Hex as [num [Hin _]]. exists num. split; [exact Hin|].
    destruct num; reflexivity.
Qed.

(** X19: when every element equals a finite [avg], [variance] returns
    exactly [+0.0], for the population and for the sample form. *)
Theorem variance_of_constant_data
  (data : list Statistic.double) (avg : Statistic.double) (general : bool) :
  Statistic.is_finite avg = true ->
  Forall (fun num => num = avg) data ->
  1 <= Statistic.size data < 2 ^ 64 ->
  (general = false -> 2 <= Statistic.size data) ->
  Statistic.variance data avg general = Statistic.Passed (S754_zero false).
Proof.
  intros Hfin Hall Hsize Hsample.
  assert (Hden : exists m e,
             Statistic.denominator data general = S754_finite false m e).
  { unfold Statistic.denominator.
    cbn [Statistic.of_size Statistic.binary64].
    apply double_of_Z_positive.
    assert (Hk : 0 <= (if negb general then 1 else 0) < Statistic.size data).
    { destruct general; cbn [negb]; [lia|].
      specialize (Hsample eq_refl). lia. }
    rewrite size_t_sub_small; lia. }
  destruct Hden as [m [e Hden]].
  assert (Hsum : Statistic.variance_sum data avg general = S754_zero false).
  { unfold Statistic.variance_sum. rewrite Hden.
    clear Hden Hsize Hsample.
    induction Hall as [|num data Hnum Hall IH]; cbn [fold_left]; trivial.
    subst num. cbv zeta.
    cbn [Statistic.minus Statistic.plus Statistic.times Statistic.divide
         Statistic.zero Statistic.binary64] in *.
    rewrite (SFsub_diag_finite avg Hfin). exact IH. }
  unfold Statistic.variance. rewrite Hsum. reflexivity.
Qed.

(** X20: [avg] of data without NaN and with clear sign bits (zero,
    positive numbers, [+infinity]) is not NaN and has a clear sign bit. *)
Theorem avg_of_nonnegative_data (data : list Statistic.double) :
  Forall (Statistic.has_sign false) data ->
  1 <= Statistic.size data < 2 ^ 64 ->
  Statistic.has_sign false (Statistic.avg data).
Proof.
  intros Hall Hsize. unfold Statistic.avg.
  destruct (double_of_Z_positive (Statistic.size data) Hsize) as [m [e Hden]].
  cbn [Statistic.of_size Statistic.binary64 Statistic.plus Statistic.divide
       Statistic.zero].
  rewrite Hden. clear Hden Hsize.
  assert (Hacc : Statistic.has_sign false (S754_zero false)) by reflexivity.
  revert Hacc. generalize (S754_zero false).
  induction Hall as [|num data Hnum Hall IH]; intros acc Hacc;
    cbn [fold_left]; [exact Hacc|].
  apply IH. apply SFadd_positive; [exact Hacc|].
  apply SFdiv_sign_positive_den, Hnum.
Qed.

(** The data 1.0, 2.0 around an infinite [avg]: no difference is NaN. *)
Lemma variance_fails_iff_nan_example :
  exists result : Statistic.double,
    Statistic.variance
      [Statistic.double_of_Z 1; Statistic.double_of_Z 2]
      (S754_infinity true) true = Statistic.Passed result /\
    Statistic.has_sign false result.
Proof.
  apply (variance_fails_iff_nan
           [Statistic.double_of_Z 1; Statistic.double_of_Z 2]
           (S754_infinity true) true).
  - vm_compute. split; [discriminate | reflexivity].
  - discriminate.
  - discriminate.
Defined.

(** A NaN after 1.0. *)
Lemma nan_element_propagates_example :
  Statistic.avg [Statistic.double_of_Z 1; S754_nan] = S754_nan /\
  Statistic.variance_of [Statistic.double_of_Z 1; S754_nan] false =
    Statistic.Assertion_failed.
Proof.
  apply nan_element_propagates.
  apply Exists_cons_tl, Exists_cons_hd. reflexivity.
Defined.

(** Three times 2.0 around 2.0, sample form. *)
Lemma variance_of_constant_data_example :
  Statistic.variance
    [Statistic.double_of_Z 2; Statistic.double_of_Z 2;
     Statistic.double_of_Z 2]
    (Statistic.double_of_Z 2) false = Statistic.Passed (S754_zero false).
Proof.
  apply variance_of_constant_data.
  - reflexivity.
  - repeat constructor.
  - vm_compute. split; [discriminate | reflexivity].
  - intros _. vm_compute. discriminate.
Defined.

(** [avg] of 0.0, 3.0 and [+infinity]. *)
Lemma avg_of_nonnegative_data_example :
  Statistic.has_sign false
    (Statistic.avg
       [S754_zero false; Statistic.double_of_Z 3; S754_infinity false]).
Proof.
  apply avg_of_nonnegative_data.
  - repeat constructor.
  - vm_compute. split; [discriminate | reflexivity].
Defined.

(** ** Process: the polling loop *)

Section Polling.

Import Process.

Variable ESRCH : Z.
Variables pid polling_interval : Z.

Local Abbreviation wait_for_exit :=
  (wait_for_exit ESRCH pid polling_interval).
Local Abbreviation rounds := (polling_rounds pid polling_interval).

(** The answers that find the process, followed by the first that does
    not. *)
Lemma wait_for_exit_prefix (found : list kill_answer)
  (answers : list kill_answer) :
  Forall (fun a => 0 <= returned_value a) found ->
  wait_for_exit (found ++ answers) =
  (rounds (length found) ++ fst (wait_for_exit answers),
   snd (wait_for_exit answers)).
Proof.
  intros Hfound.
  induction Hfound as [|a found Ha Hfound IH]; cbn [app length].
  - unfold polling_rounds. cbn [repeat concat app].
    destruct (wait_for_exit answers); reflexivity.
  - cbn [Process.wait_for_exit].
    replace (returned_value a <? 0) with false
      by (symmetry; apply Z.ltb_ge; exact Ha).
    rewrite IH. unfold polling_rounds. cbn [repeat concat app]. reflexivity.
Qed.

(** Every list of answers splits at the first that reports a failure. *)
Lemma first_failure (answers : list kill_answer) :
  Forall (fun a => 0 <= returned_value a) answers \/
  exists found a rest,
    answers = found ++ a :: rest /\
    Forall (fun a => 0 <= returned_value a) found /\
    returned_value a < 0.
Proof.
  induction answers as [|a answers IH].
  - left. constructor.
  - destruct (Z_lt_le_dec (returned_value a) 0) as [Hneg | Hpos].
    + right. exists [], a, answers. repeat split; trivial.
    + destruct IH as [IH | [found [b [rest [E [Hf Hb]]]]]].
      * left. constructor; assumption.
      * right. exists (a :: found), b, rest. subst answers.
        repeat split; trivial. constructor; assumption.
Qed.

Lemma wait_for_exit_all_found (answers : list kill_answer) :
  Forall (fun a => 0 <= returned_value a) answers ->
  wait_for_exit answers = (rounds (length answers), still_polling).
Proof.
  intros Hall.
  rewrite <- (app_nil_r answers) at 1.
  rewrite wait_for_exit_prefix by assumption.
  cbn [Process.wait_for_exit fst snd]. rewrite app_nil_r. reflexivity.
Qed.

Lemma wait_for_exit_failure (found : list kill_answer) (a : kill_answer)
  (rest : list kill_answer) :
  Forall (fun a => 0 <= returned_value a) found ->
  returned_value a < 0 ->
  wait_for_exit (found ++ a :: rest) =
  (rounds (length found) ++ [kill pid 0],
   if errno a =? ESRCH then exited
   else threw (generic_category (errno a))).
Proof.
  intros Hfound Ha. rewrite wait_for_exit_prefix by assumption.
  cbn [Process.wait_for_exit].
  replace (returned_value a <? 0) with true
    by (symmetry; apply Z.ltb_lt; exact Ha).
  destruct (errno a =? ESRCH); reflexivity.
Qed.

(** X22: [wait_for_exit] returns exactly when the first call of [kill] that
    fails leaves [errno] at [ESRCH]; it has then probed once for every
    earlier answer, slept after each of those probes, and made no call
    after the failing one. *)
Theorem wait_for_exit_returns (answers : list kill_answer)
  (calls : list call) :
  wait_for_exit answers = (calls, exited) <->
  exists found a rest,
    answers = found ++ a :: rest /\
    Forall (fun a => 0 <= returned_value a) found /\
    returned_value a < 0 /\ errno a = ESRCH /\
    calls = rounds (length found) ++ [kill pid 0].
Proof.
  split.
  - intros Hrun.
    destruct (first_failure answers)
      as [Hall | [found [a [rest [E [Hfound Ha]]]]]].
    + rewrite wait_for_exit_all_found in Hrun by assumption. discriminate.
    + subst answers. rewrite wait_for_exit_failure in Hrun by assumption.
      exists found, a, rest.
      destruct (errno a =? ESRCH) eqn:Herr; [|discriminate].
      apply Z.eqb_eq in Herr. inversion Hrun. repeat split; trivial.
  - intros [found [a [rest [-> [Hfound [Ha [Herr ->]]]]]]].
    rewrite wait_for_exit_failure by assumption.
    rewrite Herr, Z.eqb_refl. reflexivity.
Qed.

(** X23: [wait_for_exit] throws exactly when the first call of [kill] that
    fails leaves [errno] at something other than [ESRCH]; the exception
    carries that [errno], and no call follows the failing one. *)
Theorem wait_for_exit_throws (answers : list kill_answer)
  (calls : list call) (e : system_error) :
  wait_for_exit answers = (calls, threw e) <->
  exists found a rest,
    answers = found ++ a :: rest /\
    Forall (fun a => 0 <= returned_value a) found /\
    returned_value a < 0 /\ errno a <> ESRCH /\
    e = generic_category (errno a) /\
    calls = rounds (length found) ++ [kill pid 0].
Proof.
  split.
  - intros Hrun.
    destruct (first_failure answers)
      as [Hall | [found [a [rest [E [Hfound Ha]]]]]].
    + rewrite wait_for_exit_all_found in Hrun by assumption. discriminate.
    + subst answers. rewrite wait_for_exit_failure in Hrun by assumption.
      exists found, a, rest.
      destruct (errno a =? ESRCH) eqn:Herr; [discriminate|].
      apply Z.eqb_neq in Herr. inversion Hrun. repeat split; trivial.
  - intros [found [a [rest [-> [Hfound [Ha [Herr [-> ->]]]]]]]].
    rewrite wait_for_exit_failure by assumption.
    apply Z.eqb_neq in Herr. rewrite Herr. reflexivity.
Qed.

(** X24: the loop is still running after the answers given exactly when
    none of them reports a failure; it has then probed and slept once for
    each answer.  So one failing answer is enough for the loop to end. *)
Theorem wait_for_exit_keeps_polling (answers : list kill_answer) :
  (snd (wait_for_exit answers) = still_polling <->
   Forall (fun a => 0 <= returned_value a) answers) /\
  (snd (wait_for_exit answers) = still_polling ->
   fst (wait_for_exit answers) = rounds (length answers)) /\
  (Exists (fun a => returned_value a < 0) answers ->
   snd (wait_for_exit answers) <> still_polling).
Proof.
  assert (Hiff : snd (wait_for_exit answers) = still_polling <->
                 Forall (fun a => 0 <= returned_value a) answers).
  { split.
    - intros Hrun.
      destruct (first_failure answers)
        as [Hall | [found [a [rest [E [Hfound Ha]]]]]]; [exact Hall|].
      subst answers. rewrite wait_for_exit_failure in Hrun by assumption.
      cbn [snd] in Hrun. destruct (errno a =? ESRCH); discriminate.
    - intros Hall. rewrite wait_for_exit_all_found by assumption.
      reflexivity. }
  split; [exact Hiff|]. split.
  - intros Hrun. apply Hiff in Hrun.
    rewrite wait_for_exit_all_found by assumption. reflexivity.
  - intros Hex Hrun. apply Hiff in Hrun.
    apply Exists_exists in Hex. destruct Hex as [a [Hin Ha]].
    rewrite Forall_forall in Hrun. specialize (Hrun a Hin). lia.
Qed.

End Polling.

(** Two probes find process 42, the third reports [ESRCH] (3). *)
Lemma wait_for_exit_returns_example :
  Process.wait_for_exit 3 42 100
    [Process.Build_kill_answer 0 0; Process.Build_kill_answer 0 0;
     Process.Build_kill_answer (-1) 3; Process.Build_kill_answer 0 0] =
  ([Process.kill 42 0; Process.sleep_for 100;
    Process.kill 42 0; Process.sleep_for 100; Process.kill 42 0],
   Process.exited).
Proof.
  apply wait_for_exit_returns.
  exists [Process.Build_kill_answer 0 0; Process.Build_kill_answer 0 0],
    (Process.Build_kill_answer (-1) 3), [Process.Build_kill_answer 0 0].
  split; [reflexivity|].
  split; [repeat constructor; cbn; lia|].
  split; [cbn; lia|]. split; reflexivity.
Defined.

(** One probe finds process 42, the second reports [EPERM] (1). *)
Lemma wait_for_exit_throws_example :
  Process.wait_for_exit 3 42 100
    [Process.Build_kill_answer 0 0; Process.Build_kill_answer (-1) 1] =
  ([Process.kill 42 0; Process.sleep_for 100; Process.kill 42 0],
   Process.threw (Process.generic_category 1)).
Proof.
  apply wait_for_exit_throws.
  exists [Process.Build_kill_answer 0 0],
    (Process.Build_kill_answer (-1) 1), [].
  split; [reflexivity|].
  split; [repeat constructor; cbn; lia|].
  split; [cbn; lia|]. split; [cbn; lia|]. split; reflexivity.
Defined.

(** A failing third answer ends the loop. *)
Lemma wait_for_exit_keeps_polling_example :
  snd (Process.wait_for_exit 3 42 100
         [Process.Build_kill_answer 0 0; Process.Build_kill_answer 0 0;
          Process.Build_kill_answer (-1) 3]) <> Process.still_polling.
Proof.
  apply wait_for_exit_keeps_polling.
  apply Exists_cons_tl, Exists_cons_tl, Exists_cons_hd. cbn. lia.
Defined.
